(** * Verification of the codec layer of the compression portal

    Source: [project/src/utils/compressionAlgorithms.ts] (Huffman coding,
    run-length encoding, simplified LZ77 and the decode dispatcher).

    The TypeScript functions are embedded as Rocq functions of the same name.
    A JavaScript string is a finite sequence of code units; the codecs only
    compare units for equality and test them against the ASCII classes
    [0-9], [a-z] and [A-Z], so a unit is modelled by an [ascii] character and
    a string by a list of them.  [while] loops carry their cursor explicitly
    and recurse on a fuel that the length of the input bounds.  The progress
    callback, the clock ([processingTime]) and the floating-point ratio
    ([compressionRatio]) take no part in what is computed and are left out. *)

From Stdlib Require Import Ascii String.
From Stdlib Require Import List Arith Lia Bool ZArith Permutation.
Import ListNotations.

Set Implicit Arguments.

(** ** JavaScript strings and the built-ins the codecs use *)

Definition jsstring := list ascii.

(** String literals of the source. *)
Definition str (s : string) : jsstring := list_ascii_of_string s.

(** [s[i]]: [None] stands for [undefined] (index out of range). *)
Definition index (s : jsstring) (i : nat) : option ascii := nth_error s i.

(** [a === b] on values that are a one-unit string or [undefined]. *)
Definition strict_eq (a b : option ascii) : bool :=
  match a, b with
  | Some x, Some y => Ascii.eqb x y
  | None, None => true
  | _, _ => false
  end.

(** [/\d/.test(c)] on a one-unit string. *)
Definition is_digit (c : ascii) : bool :=
  (48 <=? nat_of_ascii c) && (nat_of_ascii c <=? 57).

Definition is_upper (c : ascii) : bool :=
  (65 <=? nat_of_ascii c) && (nat_of_ascii c <=? 90).

Definition is_lower (c : ascii) : bool :=
  (97 <=? nat_of_ascii c) && (nat_of_ascii c <=? 122).

(** [/[^a-zA-Z0-9]/.test(c)] on a one-unit string. *)
Definition non_alphanumeric (c : ascii) : bool :=
  negb (is_lower c || is_upper c || is_digit c).

Definition digit_char (d : nat) : ascii := ascii_of_nat (48 + d).
Definition digit_value (c : ascii) : nat := nat_of_ascii c - 48.

(** Decimal rendering of a non-negative integer, as a template literal
    [`${count}`] does it: most significant digit first, no leading zero. *)
Fixpoint decimal_digits (fuel n : nat) (acc : jsstring) : jsstring :=
  let acc' := digit_char (n mod 10) :: acc in
  match fuel with
  | 0 => acc'
  | S f => if n / 10 =? 0 then acc' else decimal_digits f (n / 10) acc'
  end.

Definition Number_toString (n : nat) : jsstring := decimal_digits n n [].

(** [parseInt(numStr)] on a string of decimal digits; the source only calls
    it on a non-empty run of digits.  (JavaScript numbers are exact below
    2^53; the counts [rleCompress] writes are at most 255.) *)
Definition parseInt_from (v : nat) (numStr : jsstring) : nat :=
  fold_left (fun a c => 10 * a + digit_value c) numStr v.

Definition parseInt (numStr : jsstring) : nat := parseInt_from 0 numStr.

(** [c.repeat(count)] for a one-unit string [c].  (An engine refuses a
    result beyond its longest string; the model has no such limit.) *)
Definition repeat_char (c : ascii) (count : nat) : jsstring := repeat c count.

(** [new Blob([s]).size]: the length of the UTF-8 encoding of [s]; a unit
    below 0x80 takes one byte, the others modelled here take two. *)
Definition Blob_size (s : jsstring) : nat :=
  fold_right (fun c n => (if nat_of_ascii c <? 128 then 1 else 2) + n) 0 s.

(** [s.substring(a, b)]: both ends are clamped to the length and swapped
    when [a > b]. *)
Definition substring (s : jsstring) (a b : nat) : jsstring :=
  let a' := Nat.min a (length s) in
  let b' := Nat.min b (length s) in
  let lo := Nat.min a' b' in
  let hi := Nat.max a' b' in
  firstn (hi - lo) (skipn lo s).

(** What a call may throw. *)
Inductive JSError : Type :=
| Error_ (message : jsstring)      (* [throw new Error(message)] *)
| TypeError                        (* a property read on [undefined] *)
| SyntaxError.                     (* [JSON.parse] on a text that is not JSON *)

Inductive result (A : Type) : Type :=
| Ok (a : A)
| Throw (e : JSError).

Arguments Ok {A} a.
Arguments Throw {A} e.

(** The result record of the three encoders ([types.ts]); [compressionRatio]
    and [processingTime] are floating-point and clock values. *)
Record CompressionResult : Type := mkCompressionResult {
  originalSize : nat;
  compressedSize : nat;
  algorithm : jsstring;
  compressedData : jsstring;
  originalData : jsstring
}.

(** ** Run-length encoding *)

Module RLE.

(** The inner loop of [rleCompress]:
    [while (i + count < data.length && data[i + count] === currentChar && count < 255) count++]. *)
Fixpoint count_loop (fuel : nat) (data : jsstring) (i : nat)
    (currentChar : ascii) (count : nat) : nat :=
  match fuel with
  | 0 => count
  | S f =>
      if (i + count <? length data)
         && strict_eq (index data (i + count)) (Some currentChar)
         && (count <? 255)
      then count_loop f data i currentChar (S count)
      else count
  end.

(** What one run appends to [compressed]. *)
Definition emit (currentChar : ascii) (count : nat) : jsstring :=
  if (3 <? count) || ((1 <? count) && non_alphanumeric currentChar)
  then Number_toString count ++ [currentChar]
  else repeat_char currentChar count.

(** The outer loop of [rleCompress], from cursor [i] with [compressed] built
    so far. *)
Fixpoint compress_loop (fuel : nat) (data : jsstring) (i : nat)
    (compressed : jsstring) : jsstring :=
  match fuel with
  | 0 => compressed
  | S f =>
      if i <? length data then
        match index data i with
        | Some currentChar =>
            let count := count_loop 255 data i currentChar 1 in
            compress_loop f data (i + count) (compressed ++ emit currentChar count)
        | None => compressed
        end
      else compressed
  end.

(** The inner loop of [rleDecompress]:
    [while (i < compressed.length && /\d/.test(compressed[i])) { numStr += compressed[i]; i++ }]. *)
Fixpoint digits_loop (fuel : nat) (compressed : jsstring) (i : nat)
    (numStr : jsstring) : nat * jsstring :=
  match fuel with
  | 0 => (i, numStr)
  | S f =>
      match index compressed i with
      | Some c =>
          if (i <? length compressed) && is_digit c
          then digits_loop f compressed (S i) (numStr ++ [c])
          else (i, numStr)
      | None => (i, numStr)
      end
  end.

(** The outer loop of [rleDecompress].  [char.repeat(count)] throws a
    [TypeError] when the digits end the string ([compressed[i]] is
    [undefined]). *)
Fixpoint decompress_loop (fuel : nat) (compressed : jsstring) (i : nat)
    (decompressed : jsstring) : result jsstring :=
  match fuel with
  | 0 => Ok decompressed
  | S f =>
      if i <? length compressed then
        match index compressed i with
        | Some c =>
            if is_digit c then
              let '(i', numStr) := digits_loop (length compressed) compressed i [] in
              let count := parseInt numStr in
              match index compressed i' with
              | Some char =>
                  decompress_loop f compressed (S i')
                    (decompressed ++ repeat_char char count)
              | None => Throw TypeError
              end
            else decompress_loop f compressed (S i) (decompressed ++ [c])
        | None => Ok decompressed
        end
      else Ok decompressed
  end.

End RLE.

(** [rleCompress(data)]: the loop starts at [i = 0] with [compressed = ''];
    every turn moves the cursor on by [count >= 1]. *)
Definition rleCompress (data : jsstring) : CompressionResult :=
  let compressed := RLE.compress_loop (length data) data 0 [] in
  {| originalSize := Blob_size data;
     compressedSize := Blob_size compressed;
     algorithm := str "Run-Length Encoding";
     compressedData := compressed;
     originalData := data |}.

(** [rleDecompress(compressed)]. *)
Definition rleDecompress (compressed : jsstring) : result jsstring :=
  RLE.decompress_loop (length compressed) compressed 0 [].

(** ** LZ77 *)

(** A triple [{ offset, length, nextChar }]; [nextChar] is a one-unit string,
    or the empty string at the end of the input. *)
Module Token.
Record t : Type := mk { offset : nat; length : nat; nextChar : jsstring }.
End Token.

(** The running [bestMatch = { offset, length }] of the search. *)
Module Match.
Record t : Type := mk { offset : nat; length : nat }.
End Match.

Module LZ77.

Definition windowSize : nat := 4096.
Definition lookAheadSize : nat := 18.

(** The inner [while] of the search: extends [matchLength] as long as
    [window[j + matchLength] === lookAhead[matchLength]]. *)
Fixpoint match_loop (fuel : nat) (window lookAhead : jsstring)
    (j matchLength : nat) : nat :=
  match fuel with
  | 0 => matchLength
  | S f =>
      if (matchLength <? length lookAhead)
         && (matchLength <? lookAheadSize)
         && strict_eq (index window (j + matchLength)) (index lookAhead matchLength)
      then match_loop f window lookAhead j (S matchLength)
      else matchLength
  end.

(** The match length found for the window start [j]. *)
Definition match_length (window lookAhead : jsstring) (j : nat) : nat :=
  match_loop (length lookAhead) window lookAhead j 0.

(** One turn of [for (let j = 0; j < window.length; j++)]. *)
Definition scan_step (window lookAhead : jsstring) (bestMatch : Match.t)
    (j : nat) : Match.t :=
  let matchLength := match_length window lookAhead j in
  if Match.length bestMatch <? matchLength
  then Match.mk (length window - j) matchLength
  else bestMatch.

Definition find_best (window lookAhead : jsstring) : Match.t :=
  fold_left (scan_step window lookAhead) (seq 0 (length window)) (Match.mk 0 0).

(** [data.substring(Math.max(0, i - windowSize), i)]; the subtraction on
    [nat] stops at 0, as [Math.max(0, _)] makes it. *)
Definition window_at (data : jsstring) (i : nat) : jsstring :=
  substring data (Nat.max 0 (i - windowSize)) i.

Definition lookAhead_at (data : jsstring) (i : nat) : jsstring :=
  substring data i (i + lookAheadSize).

(** The triple pushed when the cursor is at [i]. *)
Definition token_at (data : jsstring) (i : nat) : Token.t :=
  let bestMatch := find_best (window_at data i) (lookAhead_at data i) in
  let nextChar :=
    if i + Match.length bestMatch <? length data
    then match index data (i + Match.length bestMatch) with
         | Some c => [c]
         | None => []
         end
    else [] in
  Token.mk (Match.offset bestMatch) (Match.length bestMatch) nextChar.

(** The outer loop of [lz77Compress]: the cursor moves on by
    [Math.max(1, bestMatch.length)]. *)
Fixpoint encode_loop (fuel : nat) (data : jsstring) (i : nat)
    (compressed : list Token.t) : list Token.t :=
  match fuel with
  | 0 => compressed
  | S f =>
      if i <? length data then
        let token := token_at data i in
        encode_loop f data (i + Nat.max 1 (Token.length token))
          (compressed ++ [token])
      else compressed
  end.

(** The array [compressed] that [lz77Compress] builds. *)
Definition encode (data : jsstring) : list Token.t :=
  encode_loop (length data) data 0 [].

(** [decompressed[k]] for a possibly negative [k], appended to a string:
    [undefined] is appended as the text "undefined". *)
Definition unit_text (decompressed : jsstring) (k : Z) : jsstring :=
  match (if (k <? 0)%Z then None else index decompressed (Z.to_nat k)) with
  | Some c => [c]
  | None => str "undefined"
  end.

(** [for (let i = 0; i < token.length; i++) decompressed += decompressed[start + i]],
    with [remaining = token.length - i]. *)
Fixpoint copy_loop (remaining : nat) (start : Z) (i : nat)
    (decompressed : jsstring) : jsstring :=
  match remaining with
  | 0 => decompressed
  | S r =>
      copy_loop r start (S i)
        (decompressed ++ unit_text decompressed (start + Z.of_nat i))
  end.

(** The body of [for (const token of tokens)]. *)
Definition replay_token (decompressed : jsstring) (token : Token.t) : jsstring :=
  let decompressed1 :=
    if 0 <? Token.length token
    then copy_loop (Token.length token)
           (Z.of_nat (length decompressed) - Z.of_nat (Token.offset token)) 0
           decompressed
    else decompressed in
  match Token.nextChar token with
  | [] => decompressed1
  | _ :: _ => decompressed1 ++ Token.nextChar token
  end.

(** The loop of [lz77Decompress] over the parsed array. *)
Definition replay (tokens : list Token.t) : jsstring :=
  fold_left replay_token tokens [].

End LZ77.

(** ** Huffman coding *)

(** A JavaScript [Map] keyed by one-symbol strings: entries are kept in the
    order of first insertion, which is the order iteration visits them in. *)
Definition Map (V : Type) : Type := list (ascii * V).

Fixpoint Map_get {V : Type} (m : Map V) (k : ascii) : option V :=
  match m with
  | [] => None
  | (k', v) :: m' => if Ascii.eqb k' k then Some v else Map_get m' k
  end.

Fixpoint Map_set {V : Type} (m : Map V) (k : ascii) (v : V) : Map V :=
  match m with
  | [] => [(k, v)]
  | (k', v') :: m' =>
      if Ascii.eqb k' k then (k', v) :: m' else (k', v') :: Map_set m' k v
  end.

(** [class HuffmanNode]: [char] is [null] on the nodes the merge creates,
    [left] and [right] are [null] on the nodes the frequency table gives. *)
#[local] Unset Elimination Schemes.
Inductive HuffmanNode : Type :=
  mkHuffmanNode {
    char : option ascii;
    freq : nat;
    left : option HuffmanNode;
    right : option HuffmanNode
  }.
#[local] Set Elimination Schemes.

Module Huffman.

(** [new HuffmanNode(char, freq)]. *)
Definition new_node (char : option ascii) (freq : nat) : HuffmanNode :=
  mkHuffmanNode char freq None None.

(** [nodes.sort((a, b) => a.freq - b.freq)]: a stable sort by frequency. *)
Fixpoint insert_node (a : HuffmanNode) (sorted : list HuffmanNode) : list HuffmanNode :=
  match sorted with
  | [] => [a]
  | b :: rest =>
      if freq a <=? freq b then a :: b :: rest else b :: insert_node a rest
  end.

Definition sort (nodes : list HuffmanNode) : list HuffmanNode :=
  fold_right insert_node [] nodes.

(** The [while (nodes.length > 1)] loop of [buildHuffmanTree]. *)
Fixpoint merge_loop (fuel : nat) (nodes : list HuffmanNode) : list HuffmanNode :=
  match fuel with
  | 0 => nodes
  | S f =>
      if 1 <? length nodes then
        match sort nodes with
        | left :: right :: rest =>
            let parent :=
              mkHuffmanNode None (freq left + freq right) (Some left) (Some right) in
            merge_loop f (rest ++ [parent])
        | _ => nodes
        end
      else nodes
  end.

(** [generateCodes] on a node that is not [null]; [codes] is the map the
    calls share, threaded through them. *)
Fixpoint generateCodes_node (root : HuffmanNode) (code : jsstring)
    (codes : Map jsstring) : Map jsstring :=
  match root with
  | mkHuffmanNode (Some c) _ _ _ =>
      Map_set codes c (match code with [] => str "0" | _ :: _ => code end)
  | mkHuffmanNode None _ l r =>
      let codes1 :=
        match l with
        | Some l' => generateCodes_node l' (code ++ str "0") codes
        | None => codes
        end in
      match r with
      | Some r' => generateCodes_node r' (code ++ str "1") codes1
      | None => codes1
      end
  end.

End Huffman.

(** [buildFrequencyTable(data)]: [for (const char of data)] visits the
    symbols of [data] in order (a symbol is one unit of the model), and
    [freqTable.get(char) || 0] is 0 for a symbol not yet counted. *)
Definition buildFrequencyTable (data : jsstring) : Map nat :=
  fold_left
    (fun freqTable c =>
       Map_set freqTable c
         (match Map_get freqTable c with Some n => n | None => 0 end + 1))
    data [].

(** [buildHuffmanTree(freqTable)]: one node per entry, in the order of the
    table; [null] for no node, the node itself for one, else the node the
    merge loop leaves. *)
Definition buildHuffmanTree (freqTable : Map nat) : option HuffmanNode :=
  let nodes := map (fun '(c, f) => Huffman.new_node (Some c) f) freqTable in
  if length nodes =? 0 then None
  else if length nodes =? 1 then nth_error nodes 0
  else nth_error (Huffman.merge_loop (length nodes) nodes) 0.

(** [generateCodes(root, code, codes)]; the encoder calls it with the
    defaults [code = ''] and [codes = new Map()]. *)
Definition generateCodes (root : option HuffmanNode) (code : jsstring)
    (codes : Map jsstring) : Map jsstring :=
  match root with
  | None => codes
  | Some node => Huffman.generateCodes_node node code codes
  end.

(** The code table [huffmanCompress] computes for [data]. *)
Definition code_table (data : jsstring) : Map jsstring :=
  generateCodes (buildHuffmanTree (buildFrequencyTable data)) [] [].

(** ** The three encoders' results and the decode dispatcher *)

(** [a === b] on strings. *)
Fixpoint jsstring_eqb (a b : jsstring) : bool :=
  match a, b with
  | [], [] => true
  | x :: a', y :: b' => Ascii.eqb x y && jsstring_eqb a' b'
  | _, _ => false
  end.

Section Portal.

(** [JSON.stringify] and [JSON.parse] are built-ins of the host, not code of
    the repository; the codecs are stated over any implementation of them.
    [JSON_stringify_tokens] is [JSON.stringify] on an array of triples,
    [JSON_stringify_codes] is [JSON.stringify(Object.fromEntries(codes))],
    and [JSON_parse_tokens text] is the array of triples [JSON.parse(text)]
    yields, [None] when [text] is not the JSON text of such an array (a text
    that is not JSON makes [JSON.parse] throw a [SyntaxError]). *)
Variable JSON_stringify_tokens : list Token.t -> jsstring.
Variable JSON_parse_tokens : jsstring -> option (list Token.t).
Variable JSON_stringify_codes : Map jsstring -> jsstring.

(** [huffmanCompress(data)]: [codes.get(char) || ''] is the code of the
    symbol, and every symbol of [data] has one. *)
Definition huffmanCompress (data : jsstring) : CompressionResult :=
  let freqTable := buildFrequencyTable data in
  let root := buildHuffmanTree freqTable in
  let codes := generateCodes root [] [] in
  let compressed :=
    flat_map
      (fun c => match Map_get codes c with Some code => code | None => [] end)
      data in
  (* Math.ceil(compressed.length / 8) *)
  let compressedBytes := (length compressed + 7) / 8 in
  let headerSize := length (JSON_stringify_codes codes) in
  {| originalSize := Blob_size data;
     compressedSize := compressedBytes + headerSize;
     algorithm := str "Huffman Coding";
     compressedData := compressed;
     originalData := data |}.

(** [lz77Compress(data)]: six size units a triple, and the JSON text of the
    array as payload. *)
Definition lz77Compress (data : jsstring) : CompressionResult :=
  let compressed := LZ77.encode data in
  {| originalSize := Blob_size data;
     compressedSize := length compressed * 6;
     algorithm := str "LZ77";
     compressedData := JSON_stringify_tokens compressed;
     originalData := data |}.

(** [lz77Decompress(compressed)]. *)
Definition lz77Decompress (compressed : jsstring) : result jsstring :=
  match JSON_parse_tokens compressed with
  | Some tokens => Ok (LZ77.replay tokens)
  | None => Throw SyntaxError
  end.

(** [decompressData(compressedData, algorithm)]: the [switch] on the
    algorithm name. *)
Definition decompressData (compressedData algorithm : jsstring) : result jsstring :=
  if jsstring_eqb algorithm (str "Run-Length Encoding") then
    rleDecompress compressedData
  else if jsstring_eqb algorithm (str "LZ77") then
    lz77Decompress compressedData
  else if jsstring_eqb algorithm (str "Huffman Coding") then
    Ok (str "Huffman decompression requires the original code table")
  else
    Throw (Error_ (str "Unsupported algorithm: " ++ algorithm)).

End Portal.

(** ** A reference [JSON] for the arrays and tables of the codecs

    The compact text [JSON.stringify] writes for an array of triples and for
    a code table, and a reader of that text.  It instantiates the built-ins
    above where a statement is run on concrete data. *)
Module JSONText.

Definition hex_char (d : nat) : ascii :=
  if d <? 10 then ascii_of_nat (48 + d) else ascii_of_nat (87 + d).

Definition hex_value (c : ascii) : option nat :=
  let n := nat_of_ascii c in
  if (48 <=? n) && (n <=? 57) then Some (n - 48)
  else if (97 <=? n) && (n <=? 102) then Some (n - 87)
  else if (65 <=? n) && (n <=? 70) then Some (n - 55)
  else None.

Definition quote : ascii := ascii_of_nat 34.
Definition backslash : ascii := ascii_of_nat 92.

(** The escape of one unit inside a JSON string. *)
Definition escape_char (c : ascii) : jsstring :=
  let n := nat_of_ascii c in
  if n =? 8 then str "\b"
  else if n =? 9 then str "\t"
  else if n =? 10 then str "\n"
  else if n =? 12 then str "\f"
  else if n =? 13 then str "\r"
  else if n =? 34 then [backslash; quote]
  else if n =? 92 then [backslash; backslash]
  else if n <? 32 then str "\u00" ++ [hex_char (n / 16); hex_char (n mod 16)]
  else [c].

Definition quoted (s : jsstring) : jsstring :=
  quote :: flat_map escape_char s ++ [quote].

Fixpoint join (sep : jsstring) (parts : list jsstring) : jsstring :=
  match parts with
  | [] => []
  | [p] => p
  | p :: ps => p ++ sep ++ join sep ps
  end.

Definition stringify_token (t : Token.t) : jsstring :=
  str "{" ++ quoted (str "offset") ++ str ":" ++ Number_toString (Token.offset t)
  ++ str "," ++ quoted (str "length") ++ str ":" ++ Number_toString (Token.length t)
  ++ str "," ++ quoted (str "nextChar") ++ str ":" ++ quoted (Token.nextChar t)
  ++ str "}".

Definition stringify_tokens (tokens : list Token.t) : jsstring :=
  str "[" ++ join (str ",") (map stringify_token tokens) ++ str "]".

(** The members are written in the order of the table; an object lists its
    digit keys first, which leaves the length of the text as it is. *)
Definition stringify_codes (codes : Map jsstring) : jsstring :=
  str "{"
  ++ join (str ",") (map (fun '(k, v) => quoted [k] ++ str ":" ++ quoted v) codes)
  ++ str "}".

Fixpoint strip_prefix (p s : jsstring) : option jsstring :=
  match p, s with
  | [], _ => Some s
  | x :: p', y :: s' => if Ascii.eqb x y then strip_prefix p' s' else None
  | _ :: _, [] => None
  end.

Fixpoint span_digits (s : jsstring) : jsstring * jsstring :=
  match s with
  | c :: s' =>
      if is_digit c
      then let '(digits, rest) := span_digits s' in (c :: digits, rest)
      else ([], s)
  | [] => ([], [])
  end.

Definition read_number (s : jsstring) : option (nat * jsstring) :=
  match span_digits s with
  | ([], _) => None
  | (digits, rest) => Some (parseInt digits, rest)
  end.

Definition unescape (e : ascii) : option ascii :=
  let n := nat_of_ascii e in
  if n =? 98 then Some (ascii_of_nat 8)
  else if n =? 116 then Some (ascii_of_nat 9)
  else if n =? 110 then Some (ascii_of_nat 10)
  else if n =? 102 then Some (ascii_of_nat 12)
  else if n =? 114 then Some (ascii_of_nat 13)
  else if (n =? 34) || (n =? 92) || (n =? 47) then Some e
  else None.

Definition unescape_hex (h1 h2 h3 h4 : ascii) : option ascii :=
  match hex_value h1, hex_value h2, hex_value h3, hex_value h4 with
  | Some a, Some b, Some c, Some d =>
      let n := ((a * 16 + b) * 16 + c) * 16 + d in
      if n <? 256 then Some (ascii_of_nat n) else None
  | _, _, _, _ => None
  end.

Definition cons_result (c : option ascii) (r : option (jsstring * jsstring))
    : option (jsstring * jsstring) :=
  match c, r with
  | Some c', Some (body, rest) => Some (c' :: body, rest)
  | _, _ => None
  end.

(** Reads a string up to its closing quote (the opening one is consumed). *)
Fixpoint read_string_body (s : jsstring) : option (jsstring * jsstring) :=
  match s with
  | [] => None
  | c :: rest =>
      if Ascii.eqb c quote then Some ([], rest)
      else if Ascii.eqb c backslash then
        match rest with
        | [] => None
        | e :: rest1 =>
            if Ascii.eqb e "u"%char then
              match rest1 with
              | h1 :: h2 :: h3 :: h4 :: rest2 =>
                  cons_result (unescape_hex h1 h2 h3 h4) (read_string_body rest2)
              | _ => None
              end
            else cons_result (unescape e) (read_string_body rest1)
        end
      else cons_result (Some c) (read_string_body rest)
  end.

Definition read_token (s : jsstring) : option (Token.t * jsstring) :=
  match strip_prefix (str "{" ++ quoted (str "offset") ++ str ":") s with
  | None => None
  | Some s1 =>
  match read_number s1 with
  | None => None
  | Some (offset, s2) =>
  match strip_prefix (str "," ++ quoted (str "length") ++ str ":") s2 with
  | None => None
  | Some s3 =>
  match read_number s3 with
  | None => None
  | Some (len, s4) =>
  match strip_prefix (str "," ++ quoted (str "nextChar") ++ str ":" ++ [quote]) s4 with
  | None => None
  | Some s5 =>
  match read_string_body s5 with
  | None => None
  | Some (nextChar, s6) =>
  match strip_prefix (str "}") s6 with
  | None => None
  | Some s7 => Some (Token.mk offset len nextChar, s7)
  end end end end end end end.

Fixpoint read_rest (fuel : nat) (s : jsstring) : option (list Token.t) :=
  match fuel with
  | 0 => None
  | S f =>
      match s with
      | c :: s' =>
          if Ascii.eqb c "]"%char then
            match s' with [] => Some [] | _ :: _ => None end
          else if Ascii.eqb c ","%char then
            match read_token s' with
            | Some (token, s'') =>
                match read_rest f s'' with
                | Some tokens => Some (token :: tokens)
                | None => None
                end
            | None => None
            end
          else None
      | [] => None
      end
  end.

Definition parse_tokens (s : jsstring) : option (list Token.t) :=
  match strip_prefix (str "[]") s with
  | Some [] => Some []
  | _ =>
      match strip_prefix (str "[") s with
      | Some s' =>
          match read_token s' with
          | Some (token, s'') =>
              match read_rest (length s) s'' with
              | Some tokens => Some (token :: tokens)
              | None => None
              end
          | None => None
          end
      | None => None
      end
  end.

End JSONText.

(** * Vocabulary of the statements *)

(** ** Run-length encoding *)

(** The length of the run of [c] that starts [s]. *)
Fixpoint run_length (c : ascii) (s : jsstring) : nat :=
  match s with
  | x :: s' => if Ascii.eqb x c then S (run_length c s') else 0
  | [] => 0
  end.

(** [compressedData] of [rleCompress], run by run. *)
Definition rle_text (data : jsstring) : jsstring := compressedData (rleCompress data).

Definition no_digit (s : jsstring) : Prop := Forall (fun c => is_digit c = false) s.

Definition all_digits (s : jsstring) : Prop := Forall (fun c => is_digit c = true) s.

(** [rest] is empty or starts with a unit that is not a digit. *)
Definition stops_digits (rest : jsstring) : Prop :=
  match rest with
  | [] => True
  | c :: _ => is_digit c = false
  end.

(** [pre] ends with the unit [c]. *)
Fixpoint ends_with (pre : jsstring) (c : ascii) : bool :=
  match pre with
  | [] => false
  | [x] => Ascii.eqb x c
  | _ :: pre' => ends_with pre' c
  end.

(** A run of [c] that follows [pre] and precedes [rest] is maximal. *)
Definition maximal_run (pre : jsstring) (c : ascii) (rest : jsstring) : Prop :=
  ends_with pre c = false /\ run_length c rest = 0.

(** The policy of the specification for one run of [n] units [c]:
    the count and the symbol for a run longer than 3, and for a run of 2 or
    3 symbols that are not alphanumeric; the symbols themselves otherwise. *)
Definition run_form (c : ascii) (n : nat) : jsstring :=
  if 3 <? n then Number_toString n ++ [c]
  else if (2 <=? n) && non_alphanumeric c then Number_toString n ++ [c]
  else repeat c n.

(** ** LZ77 *)

(** The cursor positions [lz77Compress] visits, in order. *)
Fixpoint cursor_loop (fuel : nat) (data : jsstring) (i : nat)
    (visited : list nat) : list nat :=
  match fuel with
  | 0 => visited
  | S f =>
      if i <? length data then
        cursor_loop f data
          (i + Nat.max 1 (Token.length (LZ77.token_at data i))) (visited ++ [i])
      else visited
  end.

Definition cursors (data : jsstring) : list nat :=
  cursor_loop (length data) data 0 [].

(** [b] is the best match over the window starts below [k]: no start below
    [k] matches longer, and a match of positive length is the one of the
    first start that reaches that length. *)
Definition best_upto (w la : jsstring) (k : nat) (b : Match.t) : Prop :=
  (forall j, j < k -> LZ77.match_length w la j <= Match.length b) /\
  ((Match.length b = 0 /\ Match.offset b = 0) \/
   (exists j, j < k /\ 0 < Match.length b
      /\ Match.length b = LZ77.match_length w la j
      /\ Match.offset b = length w - j
      /\ forall j', j' < j -> LZ77.match_length w la j' < Match.length b)).

(** The length of the longest common prefix of two strings. *)
Fixpoint common_prefix (a b : jsstring) : nat :=
  match a, b with
  | x :: a', y :: b' => if Ascii.eqb x y then S (common_prefix a' b') else 0
  | _, _ => 0
  end.

(** The match of the window start [j]: the common prefix of the window from
    [j] on and the look-ahead, at most [lookAheadSize] long.  It ends where
    the window ends. *)
Definition window_match (w la : jsstring) (j : nat) : nat :=
  Nat.min LZ77.lookAheadSize (common_prefix (skipn j w) la).

(** The triple [t] carries the longest match of the window [w] against the
    look-ahead [la], taken at the earliest start that reaches it (the largest
    offset); without any match it carries offset 0 and length 0. *)
Definition earliest_longest (w la : jsstring) (t : Token.t) : Prop :=
  (forall j, j < length w -> window_match w la j <= Token.length t) /\
  (Token.length t = 0 -> Token.offset t = 0) /\
  (0 < Token.length t ->
   exists j, j < length w
     /\ window_match w la j = Token.length t
     /\ Token.offset t = length w - j
     /\ forall j', j' < length w ->
          window_match w la j' = Token.length t ->
          length w - j' <= Token.offset t).

(** The tie-break of the specification: no window start that reaches the
    length of the emitted match lies at a smaller offset than the emitted
    one. *)
Definition picks_smallest_offset (data : jsstring) (i : nat) : Prop :=
  let w := LZ77.window_at data i in
  let la := LZ77.lookAhead_at data i in
  let t := LZ77.token_at data i in
  forall j, j < length w ->
    window_match w la j = Token.length t ->
    Token.offset t <= length w - j.

(** ** Huffman coding *)

(** The symbols [generateCodes] meets below a node, in the order of its
    traversal. *)
Fixpoint leaves (n : HuffmanNode) : list ascii :=
  match n with
  | mkHuffmanNode (Some c) _ _ _ => [c]
  | mkHuffmanNode None _ l r =>
      match l with Some l' => leaves l' | None => [] end
      ++ match r with Some r' => leaves r' | None => [] end
  end.

Definition leaves_of (root : option HuffmanNode) : list ascii :=
  match root with
  | Some n => leaves n
  | None => []
  end.

Definition is_prefix (p s : jsstring) : Prop := exists r, s = p ++ r.

(** No code of the table is a prefix of the code of another symbol. *)
Definition prefix_free (codes : Map jsstring) : Prop :=
  forall a b ca cb,
    a <> b -> Map_get codes a = Some ca -> Map_get codes b = Some cb ->
    ~ is_prefix ca cb /\ ~ is_prefix cb ca.

(** What [generateCodes] does to the shared table below one root: symbols
    outside the subtree keep their entry, every symbol of the subtree gets a
    code that extends [code], and two symbols of the subtree get codes that
    are not prefixes of one another. *)
Definition codes_below (root : option HuffmanNode) : Prop :=
  NoDup (leaves_of root) ->
  forall (code : jsstring) (codes : Map jsstring),
  let t := generateCodes root code codes in
  (forall a, ~ In a (leaves_of root) -> Map_get t a = Map_get codes a) /\
  (forall a, In a (leaves_of root) ->
     exists ca, Map_get t a = Some ca /\ is_prefix code ca /\ ca <> []) /\
  (forall a b ca cb, In a (leaves_of root) -> In b (leaves_of root) -> a <> b ->
     Map_get t a = Some ca -> Map_get t b = Some cb -> ~ is_prefix ca cb).

(** Induction on a tree, through the optional children. *)
Fixpoint HuffmanNode_induction (P : HuffmanNode -> Prop)
    (Hleaf : forall c f l r, P (mkHuffmanNode (Some c) f l r))
    (Hnode : forall f l r,
        match l with Some l' => P l' | None => True end ->
        match r with Some r' => P r' | None => True end ->
        P (mkHuffmanNode None f l r))
    (n : HuffmanNode) {struct n} : P n :=
  match n with
  | mkHuffmanNode (Some c) f l r => Hleaf c f l r
  | mkHuffmanNode None f l r =>
      Hnode f l r
        match l with
        | Some l' => HuffmanNode_induction P Hleaf Hnode l'
        | None => I
        end
        match r with
        | Some r' => HuffmanNode_induction P Hleaf Hnode r'
        | None => I
        end
  end.

(** ** The decode dispatcher *)

(** The three names [decompressData] knows. *)
Definition known_algorithm (name : jsstring) : Prop :=
  name = str "Run-Length Encoding" \/ name = str "LZ77" \/ name = str "Huffman Coding".

(** ** Further vocabulary: frequency table, tree and payload *)

(** The distinct symbols of [data], in the order of their first occurrence. *)
Definition first_occurrences (data : jsstring) : list ascii :=
  fold_left
    (fun seen c => if existsb (Ascii.eqb c) seen then seen else seen ++ [c])
    data [].

(** The leaves below a node with the weight each carries, in the order of
    the traversal of [generateCodes]. *)
Fixpoint leaf_weights (n : HuffmanNode) : list (ascii * nat) :=
  match n with
  | mkHuffmanNode (Some c) f _ _ => [(c, f)]
  | mkHuffmanNode None _ l r =>
      match l with Some l' => leaf_weights l' | None => [] end
      ++ match r with Some r' => leaf_weights r' | None => [] end
  end.

(** A proper tree: a node is a leaf (a symbol, no child) or carries two
    children and the sum of their weights. *)
Fixpoint proper (n : HuffmanNode) : Prop :=
  match n with
  | mkHuffmanNode (Some _) _ None None => True
  | mkHuffmanNode None f (Some l) (Some r) =>
      f = freq l + freq r /\ proper l /\ proper r
  | _ => False
  end.

Definition is_bit (c : ascii) : Prop := c = "0"%char \/ c = "1"%char.

(** The encoding loop of [huffmanCompress]:
    [for (const char of data) compressed += codes.get(char) || '']. *)
Definition Huffman_encode (codes : Map jsstring) (data : jsstring) : jsstring :=
  flat_map
    (fun c => match Map_get codes c with Some code => code | None => [] end)
    data.

(** Every code of the table is a string of the bits "0" and "1". *)
Definition bit_table (codes : Map jsstring) : Prop :=
  forall a ca, Map_get codes a = Some ca -> Forall is_bit ca.

(** ** Further vocabulary: run-length encoding *)

(** The bytes one unit takes in the sizes the encoders report. *)
Definition utf8_bytes (c : ascii) : nat := if nat_of_ascii c <? 128 then 1 else 2.



(** ** Further vocabulary: LZ77 *)

(** The triple [t], emitted at the cursor [i], describes [data]: its match
    lies in the window before [i], inside the look-ahead and inside the
    text, the symbols it refers to are the symbols at the cursor, and
    [nextChar] is the symbol behind the match, or empty at the end. *)
Definition valid_triple (data : jsstring) (i : nat) (t : Token.t) : Prop :=
  Token.length t <= Token.offset t
  /\ Token.offset t <= i
  /\ Token.offset t <= LZ77.windowSize
  /\ Token.length t <= LZ77.lookAheadSize
  /\ i + Token.length t <= length data
  /\ (forall k, k < Token.length t ->
        index data (i - Token.offset t + k) = index data (i + k))
  /\ Token.nextChar t
     = match index data (i + Token.length t) with Some c => [c] | None => [] end.

(** [Math.max(1, bestMatch.length)]: how far a triple moves the cursor. *)
Definition advance (t : Token.t) : nat := Nat.max 1 (Token.length t).

(** A back-reference that also carries a next symbol. *)
Definition carries_next (t : Token.t) : bool :=
  (0 <? Token.length t)
  && match Token.nextChar t with [] => false | _ :: _ => true end.

(** * Properties *)

(** ** Characters and decimal numbers *)

Lemma ascii_eqb_refl (c : ascii) : Ascii.eqb c c = true.
Proof. apply Ascii.eqb_eq. reflexivity. Qed.

Lemma index_Some_lt (s : jsstring) (k : nat) (c : ascii) :
  index s k = Some c -> k < length s.
Proof.
  unfold index. intros H. apply nth_error_Some. congruence.
Qed.

Lemma strict_eq_true (a b : option ascii) : strict_eq a b = true -> a = b.
Proof.
  destruct a as [x|], b as [y|]; simpl; try discriminate; [|reflexivity].
  intros H. apply Ascii.eqb_eq in H. congruence.
Qed.

Lemma digit_value_char (d : nat) : d < 10 -> digit_value (digit_char d) = d.
Proof.
  intros H. do 10 (destruct d as [|d]; [reflexivity|]). lia.
Qed.

Lemma is_digit_char (d : nat) : d < 10 -> is_digit (digit_char d) = true.
Proof.
  intros H. do 10 (destruct d as [|d]; [reflexivity|]). lia.
Qed.

Lemma parseInt_decimal_digits (fuel n : nat) (acc : jsstring) :
  n <= fuel ->
  parseInt_from 0 (decimal_digits fuel n acc) = parseInt_from n acc.
Proof.
  revert n acc. induction fuel as [|f IH]; intros n acc Hn.
  - assert (n = 0) by lia. subst n. reflexivity.
  - cbn [decimal_digits].
    assert (Hmod : n mod 10 < 10) by (apply Nat.mod_upper_bound; lia).
    pose proof (Nat.div_mod_eq n 10) as Hdm.
    destruct (n / 10 =? 0) eqn:Hq.
    + apply Nat.eqb_eq in Hq.
      unfold parseInt_from. cbn [fold_left]. rewrite digit_value_char by assumption.
      f_equal. lia.
    + apply Nat.eqb_neq in Hq.
      rewrite IH by lia.
      unfold parseInt_from. cbn [fold_left]. rewrite digit_value_char by assumption.
      f_equal. lia.
Qed.

Lemma parseInt_toString (n : nat) : parseInt (Number_toString n) = n.
Proof.
  unfold parseInt, Number_toString.
  rewrite parseInt_decimal_digits by lia. reflexivity.
Qed.

Lemma decimal_digits_all_digits (fuel n : nat) (acc : jsstring) :
  Forall (fun c => is_digit c = true) acc ->
  Forall (fun c => is_digit c = true) (decimal_digits fuel n acc).
Proof.
  revert n acc. induction fuel as [|f IH]; intros n acc Hacc; cbn [decimal_digits].
  - constructor; [apply is_digit_char, Nat.mod_upper_bound; lia | assumption].
  - assert (Forall (fun c => is_digit c = true) (digit_char (n mod 10) :: acc)).
    { constructor; [apply is_digit_char, Nat.mod_upper_bound; lia | assumption]. }
    destruct (n / 10 =? 0); [assumption | apply IH; assumption].
Qed.

Lemma decimal_digits_not_nil (fuel n : nat) (acc : jsstring) :
  decimal_digits fuel n acc <> [].
Proof.
  revert n acc. induction fuel as [|f IH]; intros n acc; cbn [decimal_digits].
  - discriminate.
  - destruct (n / 10 =? 0); [discriminate | apply IH].
Qed.

Lemma toString_all_digits (n : nat) :
  Forall (fun c => is_digit c = true) (Number_toString n).
Proof. apply decimal_digits_all_digits. constructor. Qed.

Lemma toString_not_nil (n : nat) : Number_toString n <> [].
Proof. apply decimal_digits_not_nil. Qed.

(** ** Run-length encoding: the encoder, one run at a time *)

Lemma run_length_le (c : ascii) (s : jsstring) : run_length c s <= length s.
Proof.
  induction s as [|x s IH]; simpl; [lia|].
  destruct (Ascii.eqb x c); lia.
Qed.

Lemma run_length_index (c : ascii) (s : jsstring) (k : nat) :
  k < run_length c s -> index s k = Some c.
Proof.
  revert k. induction s as [|x s IH]; intros k Hk; simpl in Hk; [lia|].
  destruct (Ascii.eqb x c) eqn:E; [|lia].
  apply Ascii.eqb_eq in E. subst x.
  destruct k as [|k]; [reflexivity|]. simpl. apply IH. lia.
Qed.

Lemma run_length_stop (c : ascii) (s : jsstring) :
  strict_eq (index s (run_length c s)) (Some c) = false.
Proof.
  induction s as [|x s IH]; simpl; [reflexivity|].
  destruct (Ascii.eqb x c) eqn:E; simpl; assumption.
Qed.

Lemma run_length_firstn (c : ascii) (s : jsstring) (n : nat) :
  n <= run_length c s -> firstn n s = repeat c n.
Proof.
  revert n. induction s as [|x s IH]; intros n Hn; simpl in Hn.
  - assert (n = 0) by lia. subst n. reflexivity.
  - destruct n as [|n]; [reflexivity|].
    destruct (Ascii.eqb x c) eqn:E; [|lia].
    apply Ascii.eqb_eq in E. subst x. simpl. f_equal. apply IH. lia.
Qed.

Lemma run_length_repeat (c : ascii) (n : nat) (rest : jsstring) :
  run_length c (repeat c n ++ rest) = n + run_length c rest.
Proof.
  induction n as [|n IH]; simpl; [reflexivity|].
  rewrite ascii_eqb_refl, IH. reflexivity.
Qed.

Module RLEFacts.
Import RLE.

Lemma count_loop_shift (fuel : nat) (pre s : jsstring) (i : nat) (c : ascii) (count : nat) :
  count_loop fuel (pre ++ s) (length pre + i) c count = count_loop fuel s i c count.
Proof.
  revert count. induction fuel as [|f IH]; intros count; simpl; [reflexivity|].
  rewrite IH. unfold index.
  replace (length pre + i + count) with (length pre + (i + count)) by lia.
  rewrite nth_error_app2 by lia.
  replace (length pre + (i + count) - length pre) with (i + count) by lia.
  rewrite length_app.
  replace (length pre + (i + count) <? length pre + length s) with (i + count <? length s).
  - reflexivity.
  - destruct (i + count <? length s) eqn:E; symmetry.
    + apply Nat.ltb_lt in E. apply Nat.ltb_lt. lia.
    + apply Nat.ltb_ge in E. apply Nat.ltb_ge. lia.
Qed.

(** The inner loop finds the run, cut at 255. *)
Lemma count_loop_run (fuel : nat) (s : jsstring) (c : ascii) (count : nat) :
  count <= run_length c s -> count <= 255 -> 255 - count <= fuel ->
  count_loop fuel s 0 c count = Nat.min 255 (run_length c s).
Proof.
  revert count. induction fuel as [|f IH]; intros count Hrun Hcap Hfuel.
  - cbn [count_loop]. lia.
  - cbn [count_loop]. rewrite Nat.add_0_l.
    destruct (Nat.eq_dec count (run_length c s)) as [Heq|Hne].
    + subst count. rewrite run_length_stop.
      rewrite andb_false_r. cbn [andb]. lia.
    + rewrite (run_length_index c s (k := count)) by lia.
      pose proof (run_length_le c s).
      replace (count <? length s) with true by (symmetry; apply Nat.ltb_lt; lia).
      cbn [andb strict_eq]. rewrite ascii_eqb_refl.
      destruct (count <? 255) eqn:E.
      * apply Nat.ltb_lt in E. cbn [andb]. apply IH; lia.
      * apply Nat.ltb_ge in E. cbn [andb]. lia.
Qed.

Lemma count_loop_ge (fuel : nat) (s : jsstring) (i : nat) (c : ascii) (count : nat) :
  count <= count_loop fuel s i c count.
Proof.
  revert count. induction fuel as [|f IH]; intros count; simpl; [lia|].
  destruct (_ && _); [|lia].
  specialize (IH (S count)). lia.
Qed.

Lemma compress_loop_shift (fuel : nat) (pre s : jsstring) (i : nat) (acc : jsstring) :
  compress_loop fuel (pre ++ s) (length pre + i) acc = compress_loop fuel s i acc.
Proof.
  revert i acc. induction fuel as [|f IH]; intros i acc; cbn [compress_loop]; [reflexivity|].
  rewrite length_app. unfold index.
  rewrite nth_error_app2 by lia.
  replace (length pre + i - length pre) with i by lia.
  replace (length pre + i <? length pre + length s) with (i <? length s).
  - destruct (i <? length s); [|reflexivity].
    destruct (nth_error s i) as [c|]; [|reflexivity].
    rewrite count_loop_shift, <- Nat.add_assoc. apply IH.
  - destruct (i <? length s) eqn:E; symmetry.
    + apply Nat.ltb_lt in E. apply Nat.ltb_lt. lia.
    + apply Nat.ltb_ge in E. apply Nat.ltb_ge. lia.
Qed.

Lemma compress_loop_acc (fuel : nat) (s : jsstring) (i : nat) (acc : jsstring) :
  compress_loop fuel s i acc = acc ++ compress_loop fuel s i [].
Proof.
  revert i acc. induction fuel as [|f IH]; intros i acc; cbn [compress_loop].
  - rewrite app_nil_r. reflexivity.
  - destruct (i <? length s); [|rewrite app_nil_r; reflexivity].
    destruct (index s i) as [c|]; [|rewrite app_nil_r; reflexivity].
    rewrite (IH _ (acc ++ _)), (IH _ ([] ++ _)).
    rewrite app_nil_l, app_assoc. reflexivity.
Qed.

Lemma compress_loop_fuel (fuel fuel' : nat) (s : jsstring) (i : nat) (acc : jsstring) :
  length s - i <= fuel -> length s - i <= fuel' ->
  compress_loop fuel s i acc = compress_loop fuel' s i acc.
Proof.
  revert fuel' i acc. induction fuel as [|f IH]; intros fuel' i acc H H'.
  - destruct fuel' as [|f']; [reflexivity|]. cbn [compress_loop].
    replace (i <? length s) with false; [reflexivity|].
    symmetry. apply Nat.ltb_ge. lia.
  - destruct fuel' as [|f']; cbn [compress_loop].
    + replace (i <? length s) with false; [reflexivity|].
      symmetry. apply Nat.ltb_ge. lia.
    + destruct (i <? length s) eqn:E; [|reflexivity].
      destruct (index s i) as [c|]; [|reflexivity].
      pose proof (count_loop_ge 255 s i c 1).
      apply IH; lia.
Qed.

End RLEFacts.

Lemma rle_text_nil : rle_text [] = [].
Proof. reflexivity. Qed.

Lemma rle_text_cons (c : ascii) (rest : jsstring) :
  let n := Nat.min 255 (run_length c (c :: rest)) in
  rle_text (c :: rest) = RLE.emit c n ++ rle_text (skipn n (c :: rest)).
Proof.
  cbn zeta. unfold rle_text, rleCompress. cbn [compressedData].
  remember (c :: rest) as s eqn:Es.
  assert (Hrun : 1 <= run_length c s).
  { subst s. cbn [run_length]. rewrite ascii_eqb_refl. lia. }
  pose proof (run_length_le c s) as Hle.
  assert (Hs : length s = S (length rest)) by (subst s; reflexivity).
  remember (Nat.min 255 (run_length c s)) as n eqn:En.
  rewrite Hs at 1. cbn [RLE.compress_loop]. rewrite Hs.
  replace (0 <? S (length rest)) with true by reflexivity.
  rewrite (run_length_index c s (k := 0)) by lia.
  rewrite RLEFacts.count_loop_run by lia. rewrite <- En.
  rewrite RLEFacts.compress_loop_acc. rewrite app_nil_l. f_equal.
  assert (Hn : n <= length s) by lia.
  rewrite <- (firstn_skipn n s) at 1.
  replace (0 + n) with (length (firstn n s) + 0) by (rewrite length_firstn; lia).
  rewrite RLEFacts.compress_loop_shift.
  apply RLEFacts.compress_loop_fuel; rewrite length_skipn; lia.
Qed.

(** ** Run-length encoding: the decoder, one step at a time *)

Module RLEDecodeFacts.
Import RLE.

Lemma index_middle (pre rest : jsstring) (c : ascii) :
  index (pre ++ c :: rest) (length pre) = Some c.
Proof.
  unfold index. rewrite nth_error_app2 by lia.
  rewrite Nat.sub_diag. reflexivity.
Qed.

Lemma ltb_middle (pre rest : jsstring) (c : ascii) :
  (length pre <? length (pre ++ c :: rest)) = true.
Proof. apply Nat.ltb_lt. rewrite length_app. simpl. lia. Qed.

Lemma snoc_app (pre rest : jsstring) (c : ascii) :
  pre ++ c :: rest = (pre ++ [c]) ++ rest.
Proof. rewrite <- app_assoc. reflexivity. Qed.

Lemma length_snoc (pre : jsstring) (c : ascii) : length (pre ++ [c]) = S (length pre).
Proof. rewrite length_app. simpl. lia. Qed.

(** The inner loop reads a run of digits to its end. *)
Lemma digits_loop_run (ds : jsstring) :
  all_digits ds ->
  forall (fuel : nat) (pre rest numStr : jsstring),
  stops_digits rest -> length ds <= fuel ->
  digits_loop fuel (pre ++ ds ++ rest) (length pre) numStr
  = (length pre + length ds, numStr ++ ds).
Proof.
  induction 1 as [|d ds Hd Hds IH]; intros fuel pre rest numStr Hrest Hfuel.
  - rewrite app_nil_r, Nat.add_0_r. cbn [app].
    destruct fuel as [|f]; [reflexivity|]. cbn [digits_loop].
    destruct rest as [|c rest].
    + rewrite app_nil_r. unfold index.
      replace (nth_error pre (length pre)) with (@None ascii); [reflexivity|].
      symmetry. apply nth_error_None. lia.
    + rewrite index_middle. simpl in Hrest. rewrite Hrest, andb_false_r.
      reflexivity.
  - destruct fuel as [|f]; [simpl in Hfuel; lia|].
    cbn [digits_loop app]. rewrite index_middle, ltb_middle, Hd. cbn [andb].
    rewrite snoc_app, <- length_snoc with (c := d).
    rewrite IH by (simpl in Hfuel; try assumption; lia).
    rewrite !length_snoc, <- app_assoc. simpl. f_equal. lia.
Qed.

(** A count followed by its symbol. *)
Lemma decompress_loop_count (f : nat) (pre ds rest acc : jsstring) (c : ascii) :
  all_digits ds -> ds <> [] -> is_digit c = false ->
  decompress_loop (S f) (pre ++ ds ++ c :: rest) (length pre) acc
  = decompress_loop f (pre ++ ds ++ c :: rest) (S (length pre + length ds))
      (acc ++ repeat_char c (parseInt ds)).
Proof.
  intros Hds Hne Hc.
  destruct ds as [|d ds']; [congruence|].
  cbn [decompress_loop].
  change (pre ++ (d :: ds') ++ c :: rest) with (pre ++ d :: (ds' ++ c :: rest)) at 1 2 3.
  rewrite ltb_middle, index_middle.
  replace (is_digit d) with true by (inversion Hds; congruence).
  rewrite digits_loop_run; try assumption.
  - replace (index (pre ++ (d :: ds') ++ c :: rest) (length pre + length (d :: ds')))
      with (Some c); [reflexivity|].
    rewrite app_assoc, <- length_app. symmetry. apply index_middle.
  - rewrite length_app. cbn [length]. rewrite length_app. lia.
Qed.

(** A literal unit. *)
Lemma decompress_loop_literal (f : nat) (pre rest acc : jsstring) (c : ascii) :
  is_digit c = false ->
  decompress_loop (S f) (pre ++ c :: rest) (length pre) acc
  = decompress_loop f (pre ++ c :: rest) (S (length pre)) (acc ++ [c]).
Proof.
  intros Hc. cbn [decompress_loop].
  rewrite ltb_middle, index_middle, Hc. reflexivity.
Qed.

Lemma decompress_loop_literals (c : ascii) (k : nat) :
  is_digit c = false ->
  forall (f : nat) (pre rest acc : jsstring),
  decompress_loop (k + f) (pre ++ repeat c k ++ rest) (length pre) acc
  = decompress_loop f (pre ++ repeat c k ++ rest) (length pre + k)
      (acc ++ repeat c k).
Proof.
  intros Hc. induction k as [|k IH]; intros f pre rest acc.
  - simpl. rewrite Nat.add_0_r, app_nil_r. reflexivity.
  - cbn [repeat app Nat.add].
    rewrite decompress_loop_literal by assumption.
    rewrite snoc_app, <- length_snoc with (c := c).
    rewrite IH. rewrite length_snoc, <- app_assoc.
    f_equal; [lia | rewrite <- app_assoc; reflexivity].
Qed.

End RLEDecodeFacts.

Lemma no_digit_skipn (n : nat) (s : jsstring) : no_digit s -> no_digit (skipn n s).
Proof.
  unfold no_digit. intros H. rewrite <- (firstn_skipn n s) in H.
  apply Forall_app in H. tauto.
Qed.

(** The decoder undoes the encoder on a text without digits, from any cursor
    that stands at the start of the encoded part. *)
Lemma rle_decode_encoded (bound : nat) :
  forall data : jsstring,
  length data <= bound -> no_digit data ->
  forall (pre acc : jsstring) (fuel : nat),
  length (rle_text data) <= fuel ->
  RLE.decompress_loop fuel (pre ++ rle_text data) (length pre) acc = Ok (acc ++ data).
Proof.
  induction bound as [|bound IH]; intros data Hlen Hnd pre acc fuel Hfuel.
  - destruct data; [|simpl in Hlen; lia].
    rewrite rle_text_nil, !app_nil_r.
    destruct fuel as [|f]; [reflexivity|]. cbn [RLE.decompress_loop].
    rewrite Nat.ltb_irrefl. reflexivity.
  - destruct data as [|c rest].
    + rewrite rle_text_nil, !app_nil_r.
      destruct fuel as [|f]; [reflexivity|]. cbn [RLE.decompress_loop].
      rewrite Nat.ltb_irrefl. reflexivity.
    + pose proof (rle_text_cons c rest) as Htext. cbn zeta in Htext.
      remember (c :: rest) as s eqn:Es.
      assert (Hrun : 1 <= run_length c s).
      { subst s. cbn [run_length]. rewrite ascii_eqb_refl. lia. }
      pose proof (run_length_le c s) as Hle.
      remember (Nat.min 255 (run_length c s)) as k eqn:Ek.
      assert (Hk : 1 <= k <= length s) by lia.
      assert (Hc : is_digit c = false).
      { subst s. inversion Hnd. assumption. }
      assert (Hsplit : s = repeat c k ++ skipn k s).
      { rewrite <- (run_length_firstn c s (n := k)) by lia.
        symmetry. apply firstn_skipn. }
      assert (Htl : length (skipn k s) <= bound).
      { rewrite length_skipn. lia. }
      pose proof (no_digit_skipn k Hnd) as Hnd'.
      rewrite Htext in *. rewrite length_app in Hfuel.
      unfold RLE.emit in *.
      destruct ((3 <? k) || ((1 <? k) && non_alphanumeric c)).
      * rewrite length_app in Hfuel. simpl in Hfuel.
        destruct fuel as [|f]; [lia|].
        rewrite <- (app_assoc (Number_toString k)). cbn [app].
        rewrite RLEDecodeFacts.decompress_loop_count;
          [|apply toString_all_digits|apply toString_not_nil|assumption].
        rewrite parseInt_toString.
        replace (pre ++ Number_toString k ++ c :: rle_text (skipn k s))
          with ((pre ++ Number_toString k ++ [c]) ++ rle_text (skipn k s))
          by (rewrite <- !app_assoc; reflexivity).
        replace (S (length pre + length (Number_toString k)))
          with (length (pre ++ Number_toString k ++ [c]))
          by (rewrite !length_app; simpl; lia).
        rewrite IH by (try assumption; lia).
        unfold repeat_char. rewrite <- app_assoc, <- Hsplit. reflexivity.
      * unfold repeat_char in *. rewrite repeat_length in Hfuel.
        replace fuel with (k + (fuel - k)) by lia.
        rewrite RLEDecodeFacts.decompress_loop_literals by assumption.
        rewrite (app_assoc pre).
        replace (length pre + k) with (length (pre ++ repeat c k))
          by (rewrite length_app, repeat_length; reflexivity).
        rewrite IH by (try assumption; lia).
        rewrite <- app_assoc, <- Hsplit. reflexivity.
Qed.

(** ** LZ77: the match search *)

Module LZ77Facts.
Import LZ77.

(** A match never runs past the end of the window. *)
Lemma match_loop_in_window (fuel : nat) (w la : jsstring) (j m : nat) :
  j + m <= length w -> j + match_loop fuel w la j m <= length w.
Proof.
  revert m. induction fuel as [|f IH]; intros m Hm; cbn [match_loop]; [assumption|].
  destruct ((m <? length la) && (m <? lookAheadSize)
            && strict_eq (index w (j + m)) (index la m)) eqn:E; [|assumption].
  apply andb_prop in E. destruct E as [E Heq].
  apply andb_prop in E. destruct E as [Hla _].
  apply Nat.ltb_lt in Hla.
  apply strict_eq_true in Heq.
  destruct (index la m) as [x|] eqn:Ex.
  - apply index_Some_lt in Heq. apply IH. lia.
  - unfold index in Ex. apply nth_error_None in Ex. lia.
Qed.

Lemma match_length_in_window (w la : jsstring) (j : nat) :
  j <= length w -> match_length w la j <= length w - j.
Proof.
  intros Hj. unfold match_length.
  pose proof (@match_loop_in_window (length la) w la j 0). lia.
Qed.

Lemma common_prefix_le (a b : jsstring) : common_prefix a b <= length b.
Proof.
  revert b. induction a as [|x a IH]; intros [|y b]; simpl; try lia.
  destruct (Ascii.eqb x y); [specialize (IH b)|]; lia.
Qed.

Lemma common_prefix_index (a b : jsstring) (k : nat) :
  k < common_prefix a b -> index a k = index b k.
Proof.
  revert b k. induction a as [|x a IH]; intros [|y b] k; simpl; try lia.
  destruct (Ascii.eqb x y) eqn:E; [|lia].
  apply Ascii.eqb_eq in E. subst y. intros Hk.
  destruct k as [|k]; [reflexivity|].
  change (index a k = index b k). apply IH. lia.
Qed.

Lemma common_prefix_stop (a b : jsstring) :
  (common_prefix a b <? length b)
  && strict_eq (index a (common_prefix a b)) (index b (common_prefix a b)) = false.
Proof.
  revert b. induction a as [|x a IH]; intros [|y b]; simpl; try reflexivity.
  destruct (Ascii.eqb x y) eqn:E; [|simpl; rewrite E; reflexivity].
  apply IH.
Qed.

(** The inner loop computes the match of the start [j], and its fuel lets
    it run to the end. *)
Lemma match_loop_spec (fuel : nat) (w la : jsstring) (j m : nat) :
  m <= window_match w la j -> length la - m <= fuel ->
  match_loop fuel w la j m = window_match w la j.
Proof.
  unfold window_match.
  pose proof (common_prefix_le (skipn j w) la) as Hle.
  revert m. induction fuel as [|f IH]; intros m Hm Hfuel; cbn [match_loop]; [lia|].
  assert (Hidx : index w (j + m) = index (skipn j w) m).
  { unfold index. rewrite nth_error_skipn. reflexivity. }
  rewrite Hidx.
  destruct (Nat.eq_dec m (Nat.min lookAheadSize (common_prefix (skipn j w) la)))
    as [Heq|Hne].
  - destruct (m <? lookAheadSize) eqn:Ecap.
    + apply Nat.ltb_lt in Ecap.
      assert (Hm' : m = common_prefix (skipn j w) la) by lia.
      rewrite andb_true_r, Hm', common_prefix_stop. lia.
    + rewrite andb_false_r. cbn [andb]. lia.
  - rewrite (@common_prefix_index (skipn j w) la m) by lia.
    assert (Hla : m < length la) by lia.
    destruct (index la m) as [c|] eqn:Ec.
    + cbn [strict_eq]. rewrite ascii_eqb_refl.
      replace (m <? length la) with true by (symmetry; apply Nat.ltb_lt; lia).
      replace (m <? lookAheadSize) with true by (symmetry; apply Nat.ltb_lt; lia).
      cbn [andb]. apply IH; lia.
    + unfold index in Ec. apply nth_error_None in Ec. lia.
Qed.

Lemma match_length_spec (w la : jsstring) (j : nat) :
  match_length w la j = window_match w la j.
Proof. unfold match_length. apply match_loop_spec; lia. Qed.

Lemma scan_best_upto (w la : jsstring) (k : nat) :
  k <= length w ->
  best_upto w la k (fold_left (scan_step w la) (seq 0 k) (Match.mk 0 0)).
Proof.
  induction k as [|k IH]; intros Hk.
  - split; [intros j Hj; lia | left; split; reflexivity].
  - rewrite seq_S, fold_left_app. cbn [fold_left Nat.add].
    destruct IH as [Hmax Hcase]; [lia|].
    set (b := fold_left (scan_step w la) (seq 0 k) (Match.mk 0 0)) in *.
    unfold scan_step.
    destruct (Match.length b <? match_length w la k) eqn:E.
    + apply Nat.ltb_lt in E. split; cbn [Match.length Match.offset].
      * intros j Hj. destruct (Nat.eq_dec j k) as [->|Hne]; [lia|].
        specialize (Hmax j). lia.
      * right. exists k. repeat split; try lia.
        intros j' Hj'. specialize (Hmax j'). lia.
    + apply Nat.ltb_ge in E. split.
      * intros j Hj. destruct (Nat.eq_dec j k) as [->|Hne]; [lia|].
        apply Hmax. lia.
      * destruct Hcase as [Hzero|(j & Hj & Hrest)]; [left; assumption|].
        right. exists j. split; [lia | assumption].
Qed.

Lemma find_best_spec (w la : jsstring) : best_upto w la (length w) (find_best w la).
Proof. apply scan_best_upto. lia. Qed.

(** The match of every triple lies inside the window: its length does not
    exceed its offset. *)
Lemma find_best_length_le_offset (w la : jsstring) :
  Match.length (find_best w la) <= Match.offset (find_best w la).
Proof.
  destruct (find_best_spec w la) as [_ [[H0 _]|(j & Hj & _ & Hlen & Hoff & _)]].
  - lia.
  - rewrite Hlen, Hoff. apply match_length_in_window. lia.
Qed.

Lemma token_at_earliest_longest (data : jsstring) (i : nat) :
  earliest_longest (window_at data i) (lookAhead_at data i) (token_at data i).
Proof.
  unfold token_at. cbn zeta.
  set (w := window_at data i). set (la := lookAhead_at data i).
  destruct (find_best_spec w la) as [Hmax Hcase].
  unfold earliest_longest. cbn [Token.length Token.offset].
  split; [intros j Hj; rewrite <- match_length_spec; auto|]. split.
  - intros H0. destruct Hcase as [[_ Hoff]|(j & _ & Hpos & _)]; [assumption | lia].
  - intros Hpos. destruct Hcase as [[H0 _]|(j & Hj & _ & Hlen & Hoff & Hfirst)]; [lia|].
    exists j. rewrite <- match_length_spec. repeat split; try assumption; try lia.
    intros j' Hj' Heq. rewrite <- match_length_spec in Heq.
    destruct (Nat.lt_ge_cases j' j) as [Hlt|Hge].
    + specialize (Hfirst j' Hlt). lia.
    + lia.
Qed.

(** The array of triples is the image of the visited cursors. *)
Lemma encode_loop_cursors (fuel : nat) (data : jsstring) (i : nat) (visited : list nat) :
  encode_loop fuel data i (map (token_at data) visited)
  = map (token_at data) (cursor_loop fuel data i visited).
Proof.
  revert i visited. induction fuel as [|f IH]; intros i visited;
    cbn [encode_loop cursor_loop]; [reflexivity|].
  destruct (i <? length data); [|reflexivity].
  rewrite <- IH, map_app. reflexivity.
Qed.

Lemma encode_cursors (data : jsstring) :
  encode data = map (token_at data) (cursors data).
Proof. apply (encode_loop_cursors (length data) data 0 []). Qed.

(** The fuel of the outer loop is never what stops it. *)
Lemma encode_loop_fuel (fuel fuel' : nat) (data : jsstring) (i : nat)
    (compressed : list Token.t) :
  length data - i <= fuel -> length data - i <= fuel' ->
  encode_loop fuel data i compressed = encode_loop fuel' data i compressed.
Proof.
  revert fuel' i compressed.
  induction fuel as [|f IH]; intros [|f'] i compressed H H'; cbn [encode_loop];
    try reflexivity.
  - replace (i <? length data) with false; [reflexivity|].
    symmetry. apply Nat.ltb_ge. lia.
  - replace (i <? length data) with false; [reflexivity|].
    symmetry. apply Nat.ltb_ge. lia.
  - destruct (i <? length data); [|reflexivity]. apply IH; lia.
Qed.

Lemma cursor_loop_lt (fuel : nat) (data : jsstring) (i : nat) (visited : list nat) :
  Forall (fun k => k < length data) visited ->
  Forall (fun k => k < length data) (cursor_loop fuel data i visited).
Proof.
  revert i visited. induction fuel as [|f IH]; intros i visited Hv;
    cbn [cursor_loop]; [assumption|].
  destruct (i <? length data) eqn:E; [|assumption].
  apply IH. apply Forall_app. split; [assumption|].
  constructor; [apply Nat.ltb_lt; assumption | constructor].
Qed.

End LZ77Facts.

(** ** Huffman coding: the tree and its code table *)

Module MapFacts.

Lemma get_set {V : Type} (m : Map V) (k k' : ascii) (v : V) :
  Map_get (Map_set m k v) k' = if Ascii.eqb k k' then Some v else Map_get m k'.
Proof.
  induction m as [|[k0 v0] m IH]; simpl.
  - reflexivity.
  - destruct (Ascii.eqb k0 k) eqn:E0; simpl.
    + apply Ascii.eqb_eq in E0. subst k0.
      destruct (Ascii.eqb k k'); reflexivity.
    + rewrite IH. destruct (Ascii.eqb k0 k') eqn:E1; [|reflexivity].
      apply Ascii.eqb_eq in E1. subst k0. rewrite Ascii.eqb_sym, E0. reflexivity.
Qed.

Lemma get_set_same {V : Type} (m : Map V) (k : ascii) (v : V) :
  Map_get (Map_set m k v) k = Some v.
Proof. rewrite get_set, ascii_eqb_refl. reflexivity. Qed.

Lemma get_set_other {V : Type} (m : Map V) (k k' : ascii) (v : V) :
  k <> k' -> Map_get (Map_set m k v) k' = Map_get m k'.
Proof.
  intros H. rewrite get_set.
  destruct (Ascii.eqb k k') eqn:E; [|reflexivity].
  apply Ascii.eqb_eq in E. contradiction.
Qed.

Lemma keys_set_in {V : Type} (m : Map V) (k x : ascii) (v : V) :
  In x (map fst (Map_set m k v)) -> x = k \/ In x (map fst m).
Proof.
  induction m as [|[k0 v0] m IH]; simpl.
  - intros [H|[]]. left. congruence.
  - destruct (Ascii.eqb k0 k); simpl; intros [H|H]; auto.
    destruct (IH H); auto.
Qed.

Lemma keys_set_NoDup {V : Type} (m : Map V) (k : ascii) (v : V) :
  NoDup (map fst m) -> NoDup (map fst (Map_set m k v)).
Proof.
  induction m as [|[k0 v0] m IH]; simpl; intros H.
  - constructor; [intros [] | constructor].
  - inversion H as [|? ? Hnotin Hnd]; subst.
    destruct (Ascii.eqb k0 k) eqn:E; simpl.
    + constructor; assumption.
    + constructor; [|apply IH; assumption].
      intros Hin. apply keys_set_in in Hin. destruct Hin as [->|Hin].
      * rewrite ascii_eqb_refl in E. discriminate.
      * contradiction.
Qed.

End MapFacts.

Lemma frequency_keys_NoDup (data : jsstring) : NoDup (map fst (buildFrequencyTable data)).
Proof.
  unfold buildFrequencyTable.
  assert (H : forall (m : Map nat), NoDup (map fst m) ->
            NoDup (map fst (fold_left
              (fun freqTable c =>
                 Map_set freqTable c
                   (match Map_get freqTable c with Some n => n | None => 0 end + 1))
              data m))).
  { induction data as [|c data IH]; intros m Hm; simpl; [assumption|].
    apply IH, MapFacts.keys_set_NoDup, Hm. }
  apply H. constructor.
Qed.

Lemma NoDup_app_disjoint {A : Type} (l1 l2 : list A) (a : A) :
  NoDup (l1 ++ l2) -> In a l1 -> In a l2 -> False.
Proof.
  induction l1 as [|x l1 IH]; simpl; intros Hnd H1 H2; [contradiction|].
  inversion Hnd as [|? ? Hnotin Hnd']; subst.
  destruct H1 as [->|H1].
  - apply Hnotin, in_or_app. right. assumption.
  - apply IH; assumption.
Qed.

Lemma is_prefix_trans (p q s : jsstring) : is_prefix p q -> is_prefix q s -> is_prefix p s.
Proof.
  intros [r1 ->] [r2 ->]. exists (r1 ++ r2). rewrite app_assoc. reflexivity.
Qed.

Lemma is_prefix_app (p r : jsstring) : is_prefix p (p ++ r).
Proof. exists r. reflexivity. Qed.

(** Codes that continue a common stem with different bits are not prefixes
    of one another. *)
Lemma branches_not_prefix (code ca cb : jsstring) (x y : ascii) :
  x <> y ->
  is_prefix (code ++ [x]) ca -> is_prefix (code ++ [y]) cb -> ~ is_prefix ca cb.
Proof.
  intros Hxy [ra ->] [rb ->] [r Hr].
  rewrite <- !app_assoc in Hr. apply app_inv_head in Hr.
  simpl in Hr. congruence.
Qed.

Module HuffmanFacts.
Import Huffman.

Lemma codes_below_leaf (c : ascii) (f : nat) (l r : option HuffmanNode) :
  codes_below (Some (mkHuffmanNode (Some c) f l r)).
Proof.
  intros _ code codes. cbn [generateCodes generateCodes_node leaves_of leaves].
  split; [|split].
  - intros a Ha. apply MapFacts.get_set_other. intros ->. apply Ha. left. reflexivity.
  - intros a [<-|[]]. rewrite MapFacts.get_set_same. eexists. split; [reflexivity|].
    destruct code; split; try discriminate.
    + exists (str "0"). reflexivity.
    + exists []. rewrite app_nil_r. reflexivity.
  - intros a b ca cb [<-|[]] [<-|[]] Hab. congruence.
Qed.

Lemma codes_below_node (f : nat) (l r : option HuffmanNode) :
  codes_below l -> codes_below r ->
  codes_below (Some (mkHuffmanNode None f l r)).
Proof.
  intros Hl Hr Hnd code codes.
  change (leaves_of (Some (mkHuffmanNode None f l r)))
    with (leaves_of l ++ leaves_of r) in *.
  change (generateCodes (Some (mkHuffmanNode None f l r)) code codes)
    with (generateCodes r (code ++ str "1") (generateCodes l (code ++ str "0") codes)).
  pose proof (NoDup_app_remove_r _ _ Hnd) as Hndl.
  pose proof (NoDup_app_remove_l _ _ Hnd) as Hndr.
  destruct (Hl Hndl (code ++ str "0") codes) as (Hl1 & Hl2 & Hl3).
  set (t1 := generateCodes l (code ++ str "0") codes) in *.
  destruct (Hr Hndr (code ++ str "1") t1) as (Hr1 & Hr2 & Hr3).
  set (t := generateCodes r (code ++ str "1") t1) in *.
  assert (Hleft : forall a, In a (leaves_of l) ->
            exists ca, Map_get t a = Some ca /\ is_prefix (code ++ str "0") ca).
  { intros a Ha. destruct (Hl2 a Ha) as (ca & Hget & Hpre & _).
    exists ca. split; [|assumption].
    rewrite Hr1; [assumption|]. intros Hin.
    exact (NoDup_app_disjoint _ _ a Hnd Ha Hin). }
  split; [|split].
  - intros a Ha. rewrite Hr1, Hl1; [reflexivity| |];
      intros Hin; apply Ha, in_or_app; auto.
  - intros a Ha. apply in_app_or in Ha. destruct Ha as [Ha|Ha].
    + destruct (Hl2 a Ha) as (ca & Hget & Hpre & Hne). exists ca.
      split; [|split; [|assumption]].
      * rewrite Hr1; [assumption|]. intros Hin.
        exact (NoDup_app_disjoint _ _ a Hnd Ha Hin).
      * apply is_prefix_trans with (code ++ str "0"); [apply is_prefix_app | assumption].
    + destruct (Hr2 a Ha) as (ca & Hget & Hpre & Hne). exists ca.
      split; [assumption|]. split; [|assumption].
      apply is_prefix_trans with (code ++ str "1"); [apply is_prefix_app | assumption].
  - intros a b ca cb Ha Hb Hab Hga Hgb.
    apply in_app_or in Ha. apply in_app_or in Hb.
    destruct Ha as [Ha|Ha], Hb as [Hb|Hb].
    + apply (Hl3 a b ca cb Ha Hb Hab).
      * rewrite <- Hga. symmetry. apply Hr1. intros Hin.
        exact (NoDup_app_disjoint _ _ a Hnd Ha Hin).
      * rewrite <- Hgb. symmetry. apply Hr1. intros Hin.
        exact (NoDup_app_disjoint _ _ b Hnd Hb Hin).
    + destruct (Hleft a Ha) as (ca' & Hga' & Hpa).
      destruct (Hr2 b Hb) as (cb' & Hgb' & Hpb & _).
      assert (ca' = ca) by congruence. assert (cb' = cb) by congruence. subst.
      apply (@branches_not_prefix code ca cb "0"%char "1"%char);
        [discriminate | assumption | assumption].
    + destruct (Hleft b Hb) as (cb' & Hgb' & Hpb).
      destruct (Hr2 a Ha) as (ca' & Hga' & Hpa & _).
      assert (ca' = ca) by congruence. assert (cb' = cb) by congruence. subst.
      apply (@branches_not_prefix code ca cb "1"%char "0"%char);
        [discriminate | assumption | assumption].
    + apply (Hr3 a b ca cb Ha Hb Hab Hga Hgb).
Qed.

Lemma codes_below_all (root : option HuffmanNode) : codes_below root.
Proof.
  destruct root as [n|].
  - induction n as [c f l r | f l r IHl IHr] using HuffmanNode_induction.
    + apply codes_below_leaf.
    + apply codes_below_node.
      * destruct l; [assumption|]. intros _ code codes. cbn.
        repeat split; try contradiction; reflexivity.
      * destruct r; [assumption|]. intros _ code codes. cbn.
        repeat split; try contradiction; reflexivity.
  - intros _ code codes. cbn. repeat split; try contradiction; reflexivity.
Qed.

End HuffmanFacts.

Module TreeFacts.
Import Huffman.

Lemma insert_node_perm (a : HuffmanNode) (sorted : list HuffmanNode) :
  Permutation (insert_node a sorted) (a :: sorted).
Proof.
  induction sorted as [|b rest IH]; simpl.
  - apply Permutation_refl.
  - destruct (freq a <=? freq b).
    + apply Permutation_refl.
    + eapply perm_trans; [apply perm_skip, IH | apply perm_swap].
Qed.

Lemma sort_perm (nodes : list HuffmanNode) : Permutation (sort nodes) nodes.
Proof.
  induction nodes as [|a nodes IH]; simpl.
  - apply Permutation_refl.
  - eapply perm_trans; [apply insert_node_perm | apply perm_skip, IH].
Qed.

(** Merging keeps the symbols of the forest, each once. *)
Lemma merge_loop_NoDup (fuel : nat) (nodes : list HuffmanNode) :
  NoDup (flat_map leaves nodes) -> NoDup (flat_map leaves (merge_loop fuel nodes)).
Proof.
  revert nodes. induction fuel as [|f IH]; intros nodes Hnd; cbn [merge_loop];
    [assumption|].
  destruct (1 <? length nodes); [|assumption].
  pose proof (sort_perm nodes) as Hperm.
  destruct (sort nodes) as [|l [|r rest]]; try assumption.
  apply IH.
  apply Permutation_NoDup with (l := flat_map leaves (l :: r :: rest)).
  - rewrite flat_map_app. cbn [flat_map leaves]. rewrite app_nil_r.
    rewrite app_assoc. apply Permutation_app_comm.
  - apply Permutation_NoDup with (l := flat_map leaves nodes); [|assumption].
    apply Permutation_flat_map. apply Permutation_sym. assumption.
Qed.

(** The merge loop ends with one node when it starts with at least one. *)
Lemma merge_loop_length (fuel : nat) (nodes : list HuffmanNode) :
  1 <= length nodes -> length nodes <= S fuel ->
  length (merge_loop fuel nodes) = 1.
Proof.
  revert nodes. induction fuel as [|f IH]; intros nodes Hlo Hhi; cbn [merge_loop].
  - lia.
  - destruct (1 <? length nodes) eqn:E.
    + apply Nat.ltb_lt in E.
      pose proof (Permutation_length (sort_perm nodes)) as Hlen.
      destruct (sort nodes) as [|l [|r rest]]; simpl in Hlen; try lia.
      apply IH; rewrite length_app; simpl; lia.
    + apply Nat.ltb_ge in E. lia.
Qed.

Lemma leaves_of_table (freqTable : Map nat) :
  flat_map leaves (map (fun '(c, f) => new_node (Some c) f) freqTable)
  = map fst freqTable.
Proof.
  induction freqTable as [|[c f] m IH]; simpl; [reflexivity|].
  rewrite IH. reflexivity.
Qed.

Lemma tree_leaves_NoDup (freqTable : Map nat) :
  NoDup (map fst freqTable) -> NoDup (leaves_of (buildHuffmanTree freqTable)).
Proof.
  intros Hnd. unfold buildHuffmanTree. cbn zeta.
  set (nodes := map (fun '(c, f) => new_node (Some c) f) freqTable).
  assert (Hnodes : NoDup (flat_map leaves nodes)).
  { unfold nodes. rewrite leaves_of_table. assumption. }
  assert (Hroot : forall l, NoDup (flat_map leaves l) -> NoDup (leaves_of (nth_error l 0))).
  { intros l Hl. destruct l as [|n l]; simpl; [constructor|].
    simpl in Hl. apply NoDup_app_remove_r in Hl. assumption. }
  destruct (length nodes =? 0); [constructor|].
  destruct (length nodes =? 1).
  - apply Hroot. assumption.
  - apply Hroot, merge_loop_NoDup. assumption.
Qed.

End TreeFacts.

Module TableFacts.
Import Huffman.

Lemma keys_set_intro {V : Type} (m : Map V) (k x : ascii) (v : V) :
  x = k \/ In x (map fst m) -> In x (map fst (Map_set m k v)).
Proof.
  induction m as [|[k0 v0] m IH]; simpl.
  - intros [->|[]]. left. reflexivity.
  - destruct (Ascii.eqb k0 k) eqn:E; simpl.
    + apply Ascii.eqb_eq in E. subst k0. intros [->|[H|H]]; auto.
    + intros [->|[H|H]]; auto.
Qed.

Lemma frequency_keys_in (data : jsstring) (a : ascii) :
  In a data -> In a (map fst (buildFrequencyTable data)).
Proof.
  unfold buildFrequencyTable.
  assert (H : forall (m : Map nat), In a data \/ In a (map fst m) ->
            In a (map fst (fold_left
              (fun freqTable c =>
                 Map_set freqTable c
                   (match Map_get freqTable c with Some n => n | None => 0 end + 1))
              data m))).
  { induction data as [|c data IH]; intros m Hm; simpl.
    - destruct Hm as [[]|Hm]. assumption.
    - apply IH. destruct Hm as [[->|Hm]|Hm]; auto.
      + right. apply keys_set_intro. auto.
      + right. apply keys_set_intro. auto. }
  intros Ha. apply H. auto.
Qed.

Lemma merge_loop_perm (fuel : nat) (nodes : list HuffmanNode) :
  Permutation (flat_map leaves (merge_loop fuel nodes)) (flat_map leaves nodes).
Proof.
  revert nodes. induction fuel as [|f IH]; intros nodes; cbn [merge_loop];
    [apply Permutation_refl|].
  destruct (1 <? length nodes); [|apply Permutation_refl].
  pose proof (TreeFacts.sort_perm nodes) as Hperm.
  destruct (sort nodes) as [|l [|r rest]]; try apply Permutation_refl.
  eapply perm_trans; [apply IH|].
  apply perm_trans with (l' := flat_map leaves (l :: r :: rest)).
  - rewrite flat_map_app. cbn [flat_map leaves]. rewrite app_nil_r.
    rewrite (app_assoc (leaves l)). apply Permutation_app_comm.
  - apply Permutation_flat_map. assumption.
Qed.

(** The tree carries every key of the frequency table. *)
Lemma tree_leaves_perm (freqTable : Map nat) :
  Permutation (leaves_of (buildHuffmanTree freqTable)) (map fst freqTable).
Proof.
  unfold buildHuffmanTree. cbn zeta.
  rewrite <- (TreeFacts.leaves_of_table freqTable).
  set (nodes := map (fun '(c, f) => new_node (Some c) f) freqTable).
  destruct (length nodes =? 0) eqn:E0.
  - apply Nat.eqb_eq in E0. destruct nodes; [apply Permutation_refl | discriminate].
  - apply Nat.eqb_neq in E0.
    destruct (length nodes =? 1) eqn:E1.
    + apply Nat.eqb_eq in E1.
      destruct nodes as [|n [|? ?]]; try discriminate.
      simpl. rewrite app_nil_r. apply Permutation_refl.
    + pose proof (@TreeFacts.merge_loop_length (length nodes) nodes) as Hlen.
      pose proof (merge_loop_perm (length nodes) nodes) as Hperm.
      destruct (merge_loop (length nodes) nodes) as [|n [|? ?]];
        simpl in Hlen; try lia.
      simpl in *. rewrite app_nil_r in Hperm. assumption.
Qed.

End TableFacts.

(** Every symbol of the input has a code, and the code is not empty. *)
Lemma code_table_defined (data : jsstring) (a : ascii) :
  In a data -> exists ca, Map_get (code_table data) a = Some ca /\ ca <> [].
Proof.
  intros Ha. unfold code_table.
  set (root := buildHuffmanTree (buildFrequencyTable data)).
  assert (Hnd : NoDup (leaves_of root)).
  { apply TreeFacts.tree_leaves_NoDup, frequency_keys_NoDup. }
  destruct (HuffmanFacts.codes_below_all root Hnd [] []) as (_ & Hin & _).
  destruct (Hin a) as (ca & Hget & _ & Hne).
  - apply Permutation_in with (l := map fst (buildFrequencyTable data)).
    + apply Permutation_sym, TableFacts.tree_leaves_perm.
    + apply TableFacts.frequency_keys_in. assumption.
  - exists ca. split; assumption.
Qed.

(** ** Run-length encoding: what the decoder can return *)

Module RLEOutputFacts.
Import RLE.

(** With enough fuel the inner loop stops on a unit that is not a digit, or
    at the end of the string. *)
Lemma digits_loop_stops (fuel : nat) (s : jsstring) (i : nat) (numStr : jsstring) :
  length s - i <= fuel ->
  match index s (fst (digits_loop fuel s i numStr)) with
  | Some c => is_digit c = false
  | None => True
  end.
Proof.
  revert i numStr. induction fuel as [|f IH]; intros i numStr Hfuel; cbn [digits_loop].
  - cbn [fst]. replace (index s i) with (@None ascii); [exact I|].
    symmetry. apply nth_error_None. lia.
  - destruct (index s i) as [c|] eqn:Ei.
    + destruct ((i <? length s) && is_digit c) eqn:E.
      * apply IH. lia.
      * cbn [fst]. rewrite Ei.
        apply index_Some_lt in Ei. apply Nat.ltb_lt in Ei.
        rewrite Ei in E. exact E.
    + cbn [fst]. rewrite Ei. exact I.
Qed.



(** The decoder never writes a digit. *)
Lemma decompress_loop_no_digit (fuel : nat) (s : jsstring) (i : nat) (acc out : jsstring) :
  no_digit acc -> decompress_loop fuel s i acc = Ok out -> no_digit out.
Proof.
  revert i acc. induction fuel as [|f IH]; intros i acc Hacc; cbn [decompress_loop].
  - intros H. injection H as <-. assumption.
  - destruct (i <? length s); [|intros H; injection H as <-; assumption].
    destruct (index s i) as [c|]; [|intros H; injection H as <-; assumption].
    destruct (is_digit c) eqn:Ec.
    + pose proof (@digits_loop_stops (length s) s i []) as Hstop.
      destruct (digits_loop (length s) s i []) as [i' numStr]. cbn [fst] in Hstop.
      destruct (index s i') as [char|]; [|discriminate].
      apply IH. apply Forall_app. split; [assumption|].
      unfold repeat_char. apply Forall_forall. intros x Hx.
      apply repeat_spec in Hx. subst x. apply Hstop. lia.
    + apply IH. apply Forall_app. split; [assumption|].
      constructor; [assumption | constructor].
Qed.

End RLEOutputFacts.

Lemma rleDecompress_no_digit (compressed out : jsstring) :
  rleDecompress compressed = Ok out -> no_digit out.
Proof.
  apply RLEOutputFacts.decompress_loop_no_digit. constructor.
Qed.

Lemma rle_roundtrip_no_digit (x : jsstring) :
  no_digit x -> rleDecompress (rle_text x) = Ok x.
Proof.
  intros Hx. unfold rleDecompress.
  apply (@rle_decode_encoded (length x) x (le_n _) Hx [] [] (length (rle_text x)) (le_n _)).
Qed.

(** ** Run-length encoding: runs inside a text *)

Lemma emit_run_form (c : ascii) (n : nat) : RLE.emit c n = run_form c n.
Proof.
  unfold RLE.emit, run_form, repeat_char.
  destruct (3 <? n) eqn:E3; [reflexivity|]. cbn [orb].
  replace (1 <? n) with (2 <=? n); [reflexivity|].
  destruct n as [|[|n]]; reflexivity.
Qed.

Lemma ends_with_skipn (pre : jsstring) (c : ascii) (k : nat) :
  k < length pre -> ends_with (skipn k pre) c = ends_with pre c.
Proof.
  revert pre. induction k as [|k IH]; intros pre Hk; [reflexivity|].
  destruct pre as [|x [|y pre]]; simpl in Hk; try lia.
  change (skipn (S k) (x :: y :: pre)) with (skipn k (y :: pre)).
  rewrite IH by (simpl; lia). reflexivity.
Qed.

Lemma run_length_app_boundary (x : ascii) (pre s : jsstring) :
  pre <> [] ->
  match s with [] => True | y :: _ => ends_with pre y = false end ->
  run_length x (pre ++ s) = run_length x pre.
Proof.
  intros Hne Hb. induction pre as [|a pre IH]; [congruence|].
  destruct pre as [|b pre].
  - cbn [app run_length]. destruct (Ascii.eqb a x) eqn:E; [|reflexivity].
    f_equal. destruct s as [|y s]; [reflexivity|].
    cbn [ends_with] in Hb. cbn [run_length].
    apply Ascii.eqb_eq in E. subst a. rewrite Ascii.eqb_sym, Hb. reflexivity.
  - change ((a :: b :: pre) ++ s) with (a :: ((b :: pre) ++ s)).
    cbn [run_length]. destruct (Ascii.eqb a x); [|reflexivity].
    f_equal. apply IH; [discriminate|].
    destruct s as [|y s]; [exact I|]. exact Hb.
Qed.

(** The encoder works run by run: it may be cut at any place where the unit
    before differs from the unit after. *)
Lemma rle_text_app (bound : nat) :
  forall pre s : jsstring,
  length pre <= bound ->
  match s with [] => True | y :: _ => ends_with pre y = false end ->
  rle_text (pre ++ s) = rle_text pre ++ rle_text s.
Proof.
  induction bound as [|bound IH]; intros pre s Hlen Hb.
  - destruct pre; [reflexivity | simpl in Hlen; lia].
  - destruct pre as [|x pre]; [reflexivity|].
    change ((x :: pre) ++ s) with (x :: (pre ++ s)).
    rewrite rle_text_cons. cbn zeta.
    change (x :: (pre ++ s)) with ((x :: pre) ++ s).
    rewrite run_length_app_boundary by (try discriminate; assumption).
    rewrite (rle_text_cons x pre). cbn zeta.
    remember (x :: pre) as p eqn:Ep.
    assert (Hrun : 1 <= run_length x p).
    { subst p. cbn [run_length]. rewrite ascii_eqb_refl. lia. }
    pose proof (run_length_le x p) as Hle.
    remember (Nat.min 255 (run_length x p)) as k eqn:Ek.
    rewrite <- app_assoc. f_equal.
    rewrite skipn_app.
    replace (k - length p) with 0 by lia. cbn [skipn].
    apply IH.
    + rewrite length_skipn. lia.
    + destruct s as [|y s]; [exact I|].
      destruct (Nat.eq_dec k (length p)) as [Heq|Hneq].
      * rewrite Heq, skipn_all. reflexivity.
      * rewrite ends_with_skipn by lia. assumption.
Qed.

Lemma rle_text_run (c : ascii) (n : nat) (rest : jsstring) :
  1 <= n ->
  let k := Nat.min 255 (n + run_length c rest) in
  rle_text (repeat c n ++ rest)
  = RLE.emit c k ++ rle_text (skipn k (repeat c n ++ rest)).
Proof.
  intros Hn. destruct n as [|n]; [lia|].
  cbn zeta. rewrite <- (run_length_repeat c (S n) rest).
  cbn [repeat app]. apply rle_text_cons.
Qed.

Lemma jsstring_eqb_eq (a b : jsstring) : jsstring_eqb a b = true <-> a = b.
Proof.
  revert b. induction a as [|x a IH]; intros [|y b]; simpl;
    try (split; [discriminate | congruence]).
  - split; reflexivity.
  - rewrite andb_true_iff, Ascii.eqb_eq, IH. split.
    + intros [-> ->]. reflexivity.
    + intros H. injection H as -> ->. split; reflexivity.
Qed.

Lemma jsstring_eqb_neq (a b : jsstring) : a <> b -> jsstring_eqb a b = false.
Proof.
  intros H. destruct (jsstring_eqb a b) eqn:E; [|reflexivity].
  apply jsstring_eqb_eq in E. contradiction.
Qed.

(** ** The reference JSON text reads back what it writes *)

Module JSONFacts.
Import JSONText.

Lemma strip_prefix_app (p s : jsstring) : strip_prefix p (p ++ s) = Some s.
Proof.
  induction p as [|x p IH]; simpl; [destruct s; reflexivity|].
  rewrite ascii_eqb_refl. exact IH.
Qed.

Lemma span_digits_run (ds rest : jsstring) :
  all_digits ds -> stops_digits rest -> span_digits (ds ++ rest) = (ds, rest).
Proof.
  intros Hds Hrest. induction Hds as [|d ds Hd Hds IH]; cbn [app span_digits].
  - destruct rest as [|c rest]; [reflexivity|].
    cbn [span_digits]. unfold stops_digits in Hrest. rewrite Hrest. reflexivity.
  - rewrite Hd, IH. reflexivity.
Qed.

Lemma read_number_toString (n : nat) (rest : jsstring) :
  stops_digits rest -> read_number (Number_toString n ++ rest) = Some (n, rest).
Proof.
  intros Hrest. unfold read_number.
  rewrite span_digits_run by (try assumption; apply toString_all_digits).
  pose proof (toString_not_nil n) as Hne.
  rewrite <- (parseInt_toString n) at 2.
  destruct (Number_toString n); [congruence | reflexivity].
Qed.

Lemma read_escape (c : ascii) (rest : jsstring) :
  read_string_body (escape_char c ++ rest)
  = cons_result (Some c) (read_string_body rest).
Proof.
  destruct c as [[] [] [] [] [] [] [] []]; reflexivity.
Qed.

Lemma read_string_body_escaped (s rest : jsstring) :
  read_string_body (flat_map escape_char s ++ quote :: rest) = Some (s, rest).
Proof.
  induction s as [|c s IH]; [reflexivity|].
  cbn [flat_map]. rewrite <- app_assoc, read_escape, IH. reflexivity.
Qed.

Lemma read_token_stringify (t : Token.t) (rest : jsstring) :
  read_token (stringify_token t ++ rest) = Some (t, rest).
Proof.
  destruct t as [offset len nextChar].
  unfold read_token, stringify_token. cbn [Token.offset Token.length Token.nextChar].
  set (p1 := str "{" ++ quoted (str "offset") ++ str ":").
  set (p2 := str "," ++ quoted (str "length") ++ str ":").
  set (p3 := str "," ++ quoted (str "nextChar") ++ str ":" ++ [quote]).
  replace ((str "{" ++ quoted (str "offset") ++ str ":" ++ Number_toString offset
            ++ str "," ++ quoted (str "length") ++ str ":" ++ Number_toString len
            ++ str "," ++ quoted (str "nextChar") ++ str ":" ++ quoted nextChar
            ++ str "}") ++ rest)
    with (p1 ++ Number_toString offset ++ p2 ++ Number_toString len ++ p3
          ++ flat_map escape_char nextChar ++ quote :: str "}" ++ rest).
  - rewrite strip_prefix_app.
    rewrite read_number_toString by reflexivity.
    rewrite strip_prefix_app.
    rewrite read_number_toString by reflexivity.
    rewrite strip_prefix_app.
    rewrite read_string_body_escaped.
    rewrite strip_prefix_app. reflexivity.
  - unfold p1, p2, p3, quoted. cbn [app].
    repeat (rewrite <- ?app_assoc; cbn [app]; f_equal).
Qed.

Lemma join_cons (sep x : jsstring) (xs : list jsstring) :
  join sep (x :: xs) = x ++ flat_map (fun y => sep ++ y) xs.
Proof.
  revert x. induction xs as [|y xs IH]; intros x.
  - simpl. rewrite app_nil_r. reflexivity.
  - change (join sep (x :: y :: xs)) with (x ++ sep ++ join sep (y :: xs)).
    rewrite IH. cbn [flat_map]. rewrite <- app_assoc. reflexivity.
Qed.

Lemma read_rest_stringify (tokens : list Token.t) (fuel : nat) :
  length tokens < fuel ->
  read_rest fuel
    (flat_map (fun y => str "," ++ y) (map stringify_token tokens) ++ str "]")
  = Some tokens.
Proof.
  revert fuel. induction tokens as [|t tokens IH]; intros fuel Hfuel;
    (destruct fuel as [|f]; [simpl in Hfuel; lia|]).
  - reflexivity.
  - cbn [map flat_map read_rest]. rewrite <- !app_assoc.
    cbn [str list_ascii_of_string app Ascii.eqb Bool.eqb andb].
    rewrite read_token_stringify. rewrite IH by (simpl in Hfuel; lia).
    reflexivity.
Qed.

Lemma join_length (tokens : list Token.t) :
  length tokens
  <= length (flat_map (fun y => str "," ++ y) (map stringify_token tokens)).
Proof.
  induction tokens as [|t tokens IH]; [apply le_n|].
  cbn [map flat_map]. rewrite length_app.
  change (length (str "," ++ stringify_token t)) with (S (length (stringify_token t))).
  change (length (t :: tokens)) with (S (length tokens)).
  lia.
Qed.

(** [JSON.parse(JSON.stringify(tokens))] is [tokens]. *)
Lemma parse_stringify_tokens (tokens : list Token.t) :
  parse_tokens (stringify_tokens tokens) = Some tokens.
Proof.
  destruct tokens as [|t tokens]; [reflexivity|].
  unfold stringify_tokens. cbn [map]. rewrite join_cons.
  unfold parse_tokens.
  assert (Hhead : exists tl, stringify_token t = "{"%char :: tl).
  { unfold stringify_token. eexists. reflexivity. }
  destruct Hhead as [tl Htl].
  remember (flat_map (fun y => str "," ++ y) (map stringify_token tokens)) as others.
  replace (strip_prefix (str "[]")
             (str "[" ++ (stringify_token t ++ others) ++ str "]"))
    with (@None jsstring) by (rewrite Htl; reflexivity).
  change (str "[" ++ (stringify_token t ++ others) ++ str "]")
    with ("["%char :: (stringify_token t ++ others) ++ str "]").
  cbn [strip_prefix str list_ascii_of_string].
  rewrite ascii_eqb_refl. rewrite <- app_assoc, read_token_stringify.
  subst others. rewrite read_rest_stringify; [reflexivity|].
  pose proof (join_length tokens). cbn [length]. rewrite !length_app. lia.
Qed.

End JSONFacts.

(** ** LZ77 through the payload text *)

Section LZ77Payload.

Variable JSON_stringify_tokens : list Token.t -> jsstring.
Variable JSON_parse_tokens : jsstring -> option (list Token.t).
Hypothesis JSON_parse_stringify :
  forall tokens, JSON_parse_tokens (JSON_stringify_tokens tokens) = Some tokens.

(** Decoding the payload of [lz77Compress] replays the triples the encoder
    emitted: the JSON text between them changes nothing. *)
Lemma lz77_payload_replay (data : jsstring) :
  decompressData JSON_parse_tokens
    (compressedData (lz77Compress JSON_stringify_tokens data)) (str "LZ77")
  = Ok (LZ77.replay (LZ77.encode data)).
Proof.
  unfold lz77Compress. cbn [compressedData].
  unfold decompressData.
  cbn [jsstring_eqb str list_ascii_of_string Ascii.eqb Bool.eqb andb].
  unfold lz77Decompress. rewrite JSON_parse_stringify. reflexivity.
Qed.

End LZ77Payload.

(** * The claims of the specification *)

(** ** C1 *)

(** C1 (LZ77 round-trip), evaluated on the input "aab": the encoder emits
    the triples (0,0,"a"), (1,1,"b"), (0,0,"b") -- after the match of length 1
    the cursor moves on by 1 although the triple also carries the next
    symbol "b" -- and the decoder replays them to "aabb", not to "aab".  The
    same holds through [lz77Compress] and [decompressData] with the
    reference JSON text. *)
Theorem lz77_roundtrip_breaks_on_aab :
  LZ77.encode (str "aab")
  = [Token.mk 0 0 (str "a"); Token.mk 1 1 (str "b"); Token.mk 0 0 (str "b")]
  /\ LZ77.replay (LZ77.encode (str "aab")) = str "aabb"
  /\ decompressData JSONText.parse_tokens
       (compressedData (lz77Compress JSONText.stringify_tokens (str "aab")))
       (str "LZ77")
     = Ok (str "aabb")
  /\ str "aabb" <> str "aab".
Proof.
  repeat split; try (vm_compute; reflexivity). discriminate.
Qed.

(** ** C2 *)

(** C2 as stated fails on an input with a digit: "2a" is encoded as "2a",
    which the decoder reads as the count 2 of the symbol "a". *)
Lemma rle_roundtrip_breaks_on_digit :
  compressedData (rleCompress (str "2a")) = str "2a"
  /\ rleDecompress (compressedData (rleCompress (str "2a"))) = Ok (str "aa")
  /\ rleDecompress (compressedData (rleCompress (str "2a"))) <> Ok (str "2a").
Proof.
  repeat split; try (vm_compute; reflexivity). vm_compute. discriminate.
Qed.

(** C2, amended: [rleDecompress] applied to the [compressedData] of
    [rleCompress x] returns exactly [x] if and only if [x] contains no decimal
    digit; it does so for the empty sequence. *)
Theorem rle_roundtrip_iff_no_digit :
  (forall x : jsstring,
     rleDecompress (compressedData (rleCompress x)) = Ok x <-> no_digit x)
  /\ rleDecompress (compressedData (rleCompress [])) = Ok [].
Proof.
  split; [|reflexivity].
  intros x. split.
  - apply rleDecompress_no_digit.
  - intros Hx. fold (rle_text x). apply rle_roundtrip_no_digit. exact Hx.
Qed.

(** ** C3 *)

(** C3 as stated fails: on "aaaa" the encoder emits three triples, and the
    back-reference that follows the literal has length 1, not 3. *)
Lemma lz77_aaaa_not_two_triples :
  length (LZ77.encode (str "aaaa")) = 3
  /\ nth_error (LZ77.encode (str "aaaa")) 1 = Some (Token.mk 1 1 (str "a")).
Proof. split; vm_compute; reflexivity. Qed.

(** C3, amended: the match search of the encoder stays inside the window,
    so the length of every emitted triple is at most its offset (no match
    overlaps the look-ahead); on "aaaa" [lz77Compress] emits the literal
    triple (0,0,"a"), then the back-reference (1,1,"a") of length 1, then one
    more triple for the rest of the run. *)
Theorem lz77_match_within_window :
  (forall (data : jsstring) (t : Token.t),
     In t (LZ77.encode data) -> Token.length t <= Token.offset t)
  /\ exists t3,
       LZ77.encode (str "aaaa")
       = [Token.mk 0 0 (str "a"); Token.mk 1 1 (str "a"); t3]
       /\ Token.length t3 <= Token.offset t3.
Proof.
  split.
  - intros data t Hin. rewrite LZ77Facts.encode_cursors in Hin.
    apply in_map_iff in Hin. destruct Hin as (i & <- & _).
    unfold LZ77.token_at. cbn [Token.length Token.offset].
    apply LZ77Facts.find_best_length_le_offset.
  - exists (Token.mk 2 2 []). split; [vm_compute; reflexivity | cbn; lia].
Qed.

Lemma lz77_match_within_window_witness :
  Token.length (Token.mk 3 3 (str "a")) <= Token.offset (Token.mk 3 3 (str "a")).
Proof.
  apply (proj1 lz77_match_within_window (str "abcabca")).
  vm_compute. right. right. right. left. reflexivity.
Defined.

(** ** C4 *)

(** C4 as stated fails at the last cursor of "aaa": the window "aa" matches
    the look-ahead "a" with length 1 at both starts, and the emitted triple
    carries offset 2, not the smaller offset 1. *)
Lemma lz77_tie_break_not_smallest_offset :
  In 2 (cursors (str "aaa"))
  /\ LZ77.token_at (str "aaa") 2 = Token.mk 2 1 []
  /\ window_match (LZ77.window_at (str "aaa") 2) (LZ77.lookAhead_at (str "aaa") 2) 1 = 1
  /\ ~ picks_smallest_offset (str "aaa") 2.
Proof.
  repeat split; try (vm_compute; tauto).
  intros H. specialize (H 1). vm_compute in H.
  assert (Hle : 2 <= 1) by (apply H; [apply le_n | reflexivity]).
  lia.
Qed.

(** C4, amended: the k-th triple [lz77Compress] emits is the one of the k-th
    cursor; it carries the greatest match length over the window starts,
    and among the starts that reach this length the earliest one, that is the
    largest offset; when nothing matches, offset and length are 0. *)
Theorem lz77_tie_break_earliest (data : jsstring) (k : nat) (t : Token.t) :
  nth_error (LZ77.encode data) k = Some t ->
  exists i,
    nth_error (cursors data) k = Some i
    /\ i < length data
    /\ t = LZ77.token_at data i
    /\ earliest_longest (LZ77.window_at data i) (LZ77.lookAhead_at data i) t.
Proof.
  rewrite LZ77Facts.encode_cursors, nth_error_map.
  destruct (nth_error (cursors data) k) as [i|] eqn:Ei; simpl; [|discriminate].
  intros H. injection H as <-. exists i.
  split; [reflexivity | split; [|split; [reflexivity|]]].
  - pose proof (@LZ77Facts.cursor_loop_lt (length data) data 0 [] (Forall_nil _)) as Hlt.
    rewrite Forall_forall in Hlt. apply Hlt. apply nth_error_In with k. exact Ei.
  - apply LZ77Facts.token_at_earliest_longest.
Qed.

Lemma lz77_tie_break_earliest_witness :
  exists i,
    nth_error (cursors (str "aaa")) 2 = Some i
    /\ i < length (str "aaa")
    /\ Token.mk 2 1 [] = LZ77.token_at (str "aaa") i
    /\ earliest_longest (LZ77.window_at (str "aaa") i)
         (LZ77.lookAhead_at (str "aaa") i) (Token.mk 2 1 []).
Proof.
  apply (lz77_tie_break_earliest (str "aaa") 2). vm_compute. reflexivity.
Defined.

(** ** C5 *)

(** C5 as stated fails on its Huffman part: asked to decode a Huffman
    payload, [decompressData] throws nothing and returns a string as its
    normal result. *)
Lemma decompressData_huffman_returns_text :
  decompressData JSONText.parse_tokens (str "0110") (str "Huffman Coding")
  = Ok (str "Huffman decompression requires the original code table")
  /\ forall e : JSError,
       decompressData JSONText.parse_tokens (str "0110") (str "Huffman Coding")
       <> Throw e.
Proof.
  split; [vm_compute; reflexivity|]. intros e. vm_compute. discriminate.
Qed.

(** C5, amended: for every algorithm name outside "Run-Length Encoding",
    "LZ77" and "Huffman Coding", [decompressData] throws the error
    "Unsupported algorithm: <name>"; for "Huffman Coding" it throws nothing
    and returns, whatever the payload, the fixed text
    "Huffman decompression requires the original code table". *)
Theorem decompressData_dispatch
    (JSON_parse_tokens : jsstring -> option (list Token.t))
    (compressed name : jsstring) :
  (~ known_algorithm name ->
   decompressData JSON_parse_tokens compressed name
   = Throw (Error_ (str "Unsupported algorithm: " ++ name)))
  /\ decompressData JSON_parse_tokens compressed (str "Huffman Coding")
     = Ok (str "Huffman decompression requires the original code table").
Proof.
  split; [|reflexivity].
  intros Hname. unfold decompressData, known_algorithm in *.
  rewrite !jsstring_eqb_neq by tauto. reflexivity.
Qed.

Lemma decompressData_dispatch_witness :
  decompressData JSONText.parse_tokens (str "4a") (str "Deflate")
  = Throw (Error_ (str "Unsupported algorithm: Deflate")).
Proof.
  apply (proj1 (decompressData_dispatch JSONText.parse_tokens (str "4a") (str "Deflate"))).
  unfold known_algorithm. intros [H|[H|H]]; discriminate H.
Defined.

(** ** C6 *)

(** C6: for every input, the code table that [generateCodes] derives from
    the tree of [buildHuffmanTree] over [buildFrequencyTable] is prefix-free:
    the codes of two distinct symbols of the table are not prefixes of one
    another. *)
Theorem huffman_codes_prefix_free (input : jsstring) :
  prefix_free (generateCodes (buildHuffmanTree (buildFrequencyTable input)) [] []).
Proof.
  set (root := buildHuffmanTree (buildFrequencyTable input)).
  assert (Hnd : NoDup (leaves_of root)).
  { apply TreeFacts.tree_leaves_NoDup, frequency_keys_NoDup. }
  destruct (HuffmanFacts.codes_below_all root Hnd [] []) as (Hout & _ & Hin).
  assert (Hmem : forall a ca, Map_get (generateCodes root [] []) a = Some ca ->
                   In a (leaves_of root)).
  { intros a ca Hget. destruct (in_dec ascii_dec a (leaves_of root)) as [H|H]; [assumption|].
    rewrite (Hout a H) in Hget. discriminate. }
  intros a b ca cb Hab Hga Hgb. split.
  - apply (Hin a b ca cb); eauto.
  - apply (Hin b a cb ca); eauto.
Qed.

Lemma huffman_codes_prefix_free_witness :
  ~ is_prefix (str "0") (str "100") /\ ~ is_prefix (str "100") (str "0").
Proof.
  apply (@huffman_codes_prefix_free (str "abracadabra") "a"%char "c"%char).
  - discriminate.
  - vm_compute. reflexivity.
  - vm_compute. reflexivity.
Defined.

(** ** C7 *)

(** C7: a maximal run of [n] symbols [c], [n] from 1 to 255, is emitted as
    [run_form c n] -- the count and the symbol when [n > 3], and when [n] is 2
    or 3 and [c] is not alphanumeric, the symbols themselves otherwise (a
    single symbol always as itself) --
    between the encodings of what precedes and what follows it; of a longer
    run the first 255 symbols are emitted as "255" and the symbol, and the
    scan resumes behind them; [rleCompress("aaaabbbccc")] produces
    "4abbbccc". *)
Theorem rle_run_policy :
  (forall (pre rest : jsstring) (c : ascii) (n : nat),
     maximal_run pre c rest -> 1 <= n <= 255 ->
     compressedData (rleCompress (pre ++ repeat c n ++ rest))
     = compressedData (rleCompress pre) ++ run_form c n
       ++ compressedData (rleCompress rest))
  /\ (forall (pre rest : jsstring) (c : ascii) (n : nat),
     ends_with pre c = false -> 255 < n ->
     compressedData (rleCompress (pre ++ repeat c n ++ rest))
     = compressedData (rleCompress pre) ++ (str "255" ++ [c])
       ++ compressedData (rleCompress (repeat c (n - 255) ++ rest)))
  /\ (forall (c : ascii) (n : nat),
     (3 < n -> run_form c n = Number_toString n ++ [c])
     /\ (2 <= n <= 3 -> non_alphanumeric c = true ->
         run_form c n = Number_toString n ++ [c])
     /\ (n <= 3 -> non_alphanumeric c = false -> run_form c n = repeat c n)
     /\ run_form c 1 = [c])
  /\ compressedData (rleCompress (str "aaaabbbccc")) = str "4abbbccc".
Proof.
  fold (rle_text (str "aaaabbbccc")).
  split; [|split; [|split]].
  - intros pre rest c n [Hpre Hrest] Hn.
    fold (rle_text (pre ++ repeat c n ++ rest)) (rle_text pre) (rle_text rest).
    rewrite (@rle_text_app (length pre)); [|lia|].
    + f_equal. rewrite rle_text_run by lia. cbn zeta.
      rewrite Hrest, Nat.add_0_r, Nat.min_r by lia.
      rewrite emit_run_form. f_equal.
      rewrite skipn_app, repeat_length, Nat.sub_diag, skipn_all2
        by (rewrite repeat_length; lia).
      reflexivity.
    + destruct n as [|n]; [lia|]. exact Hpre.
  - intros pre rest c n Hpre Hn.
    fold (rle_text (pre ++ repeat c n ++ rest)) (rle_text pre)
         (rle_text (repeat c (n - 255) ++ rest)).
    rewrite (@rle_text_app (length pre)); [|lia|].
    + f_equal. rewrite rle_text_run by lia. cbn zeta.
      rewrite Nat.min_l by lia. f_equal.
      replace n with (255 + (n - 255)) at 1 by lia.
      rewrite repeat_app, <- app_assoc, skipn_app, repeat_length, Nat.sub_diag.
      rewrite skipn_all2 by (rewrite repeat_length; lia).
      reflexivity.
    + destruct n as [|n]; [lia|]. exact Hpre.
  - intros c n. unfold run_form. repeat split.
    + intros H. apply Nat.ltb_lt in H. rewrite H. reflexivity.
    + intros [H2 H3] Hc. rewrite Hc.
      replace (3 <? n) with false by (symmetry; apply Nat.ltb_ge; lia).
      replace (2 <=? n) with true by (symmetry; apply Nat.leb_le; lia).
      reflexivity.
    + intros H3 Hc. rewrite Hc, andb_false_r.
      replace (3 <? n) with false by (symmetry; apply Nat.ltb_ge; lia).
      reflexivity.
  - vm_compute. reflexivity.
Qed.

Lemma rle_run_policy_witness :
  compressedData (rleCompress (str "ab" ++ repeat "-"%char 3 ++ str "cd"))
  = compressedData (rleCompress (str "ab")) ++ run_form "-"%char 3
    ++ compressedData (rleCompress (str "cd")).
Proof.
  apply (proj1 rle_run_policy (str "ab") (str "cd") "-"%char 3).
  - split; reflexivity.
  - lia.
Defined.

(** ** C8 *)

Lemma frequency_table_repeat (c : ascii) (n : nat) :
  buildFrequencyTable (repeat c (S n)) = [(c, S n)].
Proof.
  unfold buildFrequencyTable. cbn [repeat fold_left Map_set Map_get].
  change (0 + 1) with 1.
  assert (H : forall m,
            fold_left
              (fun freqTable c0 =>
                 Map_set freqTable c0
                   (match Map_get freqTable c0 with Some k => k | None => 0 end + 1))
              (repeat c n) [(c, m)] = [(c, m + n)]).
  { induction n as [|n IH]; intros m.
    - simpl. rewrite Nat.add_0_r. reflexivity.
    - cbn [repeat fold_left Map_set Map_get]. rewrite ascii_eqb_refl.
      rewrite IH. f_equal. f_equal. lia. }
  apply H.
Qed.

(** C8: for every non-empty input made of one symbol only, the code table
    holds exactly that symbol, with the one-bit code "0". *)
Theorem huffman_single_symbol_code (input : jsstring) (c : ascii) :
  input <> [] -> (forall x, In x input -> x = c) ->
  generateCodes (buildHuffmanTree (buildFrequencyTable input)) [] []
  = [(c, str "0")].
Proof.
  intros Hne Hall.
  assert (Hrep : input = repeat c (length input)).
  { apply Forall_eq_repeat, Forall_forall. intros x Hx. symmetry. auto. }
  destruct (length input) as [|n] eqn:Hlen.
  { destruct input; [congruence | discriminate]. }
  rewrite Hrep, frequency_table_repeat. reflexivity.
Qed.

Lemma huffman_single_symbol_code_witness :
  generateCodes (buildHuffmanTree (buildFrequencyTable (str "zzzz"))) [] []
  = [("z"%char, str "0")].
Proof.
  apply huffman_single_symbol_code.
  - discriminate.
  - intros x Hx. simpl in Hx. intuition congruence.
Defined.

(** ** C9 *)

(** C9 as stated fails on its Huffman part: the payload [huffmanCompress]
    returns for the empty input is the empty string, and [decompressData]
    answers it with a fixed text, not with the empty sequence. *)
Lemma empty_huffman_payload_not_decoded :
  compressedData (huffmanCompress JSONText.stringify_codes []) = []
  /\ decompressData JSONText.parse_tokens
       (compressedData (huffmanCompress JSONText.stringify_codes []))
       (algorithm (huffmanCompress JSONText.stringify_codes []))
     = Ok (str "Huffman decompression requires the original code table")
  /\ str "Huffman decompression requires the original code table" <> [].
Proof. repeat split; try (vm_compute; reflexivity). discriminate. Qed.

(** C9, amended: on the empty input the three encoders return
    [originalSize = 0]; [decompressData], given the payload and the algorithm
    name of the result, returns the empty sequence for run-length encoding
    and for LZ77 (whose payload is the JSON text of the empty array, read
    back by [JSON.parse]), and for Huffman coding the fixed text
    "Huffman decompression requires the original code table". *)
Theorem empty_input_results
    (JSON_stringify_tokens : list Token.t -> jsstring)
    (JSON_parse_tokens : jsstring -> option (list Token.t))
    (JSON_stringify_codes : Map jsstring -> jsstring) :
  JSON_parse_tokens (JSON_stringify_tokens []) = Some [] ->
  let huffman := huffmanCompress JSON_stringify_codes [] in
  let rle := rleCompress [] in
  let lz77 := lz77Compress JSON_stringify_tokens [] in
  originalSize huffman = 0 /\ originalSize rle = 0 /\ originalSize lz77 = 0
  /\ decompressData JSON_parse_tokens (compressedData rle) (algorithm rle) = Ok []
  /\ decompressData JSON_parse_tokens (compressedData lz77) (algorithm lz77) = Ok []
  /\ decompressData JSON_parse_tokens (compressedData huffman) (algorithm huffman)
     = Ok (str "Huffman decompression requires the original code table").
Proof.
  intros Hjson. cbn zeta. repeat split.
  unfold lz77Compress. cbn [compressedData algorithm].
  change (LZ77.encode []) with (@nil Token.t).
  unfold decompressData. cbn [jsstring_eqb str list_ascii_of_string Ascii.eqb Bool.eqb andb].
  unfold lz77Decompress. rewrite Hjson. reflexivity.
Qed.

Lemma empty_input_results_witness :
  let huffman := huffmanCompress JSONText.stringify_codes [] in
  let rle := rleCompress [] in
  let lz77 := lz77Compress JSONText.stringify_tokens [] in
  originalSize huffman = 0 /\ originalSize rle = 0 /\ originalSize lz77 = 0
  /\ decompressData JSONText.parse_tokens (compressedData rle) (algorithm rle) = Ok []
  /\ decompressData JSONText.parse_tokens (compressedData lz77) (algorithm lz77) = Ok []
  /\ decompressData JSONText.parse_tokens (compressedData huffman) (algorithm huffman)
     = Ok (str "Huffman decompression requires the original code table").
Proof.
  apply (empty_input_results JSONText.stringify_tokens JSONText.parse_tokens
           JSONText.stringify_codes).
  exact (JSONFacts.parse_stringify_tokens []).
Defined.

(** ** C10 *)

(** C10: for every sequence [x] without a decimal digit, [rleDecompress]
    applied to the [compressedData] of [rleCompress x] returns [x]. *)
Theorem rle_roundtrip_without_digits (x : jsstring) :
  (forall c, In c x -> is_digit c = false) ->
  rleDecompress (compressedData (rleCompress x)) = Ok x.
Proof.
  intros Hx. apply rle_roundtrip_no_digit. apply Forall_forall. exact Hx.
Qed.

Lemma rle_roundtrip_without_digits_witness :
  rleDecompress (compressedData (rleCompress (str "aaaabbb----c  d")))
  = Ok (str "aaaabbb----c  d").
Proof.
  apply rle_roundtrip_without_digits.
  intros c Hc. simpl in Hc.
  repeat (destruct Hc as [<-|Hc]; [reflexivity|]). contradiction.
Defined.

(** * Further properties of the codecs *)

(** ** The frequency table *)

Module FrequencyFacts.

Lemma fold_get (data : jsstring) (c : ascii) :
  forall m : Map nat,
  Map_get
    (fold_left
       (fun freqTable c0 =>
          Map_set freqTable c0
            (match Map_get freqTable c0 with Some n => n | None => 0 end + 1))
       data m) c
  = match Map_get m c with
    | Some n => Some (n + count_occ ascii_dec data c)
    | None =>
        if count_occ ascii_dec data c =? 0 then None
        else Some (count_occ ascii_dec data c)
    end.
Proof.
  induction data as [|x data IH]; intros m.
  - cbn [fold_left count_occ]. destruct (Map_get m c) as [n|]; [|reflexivity].
    rewrite Nat.add_0_r. reflexivity.
  - cbn [fold_left]. rewrite IH, MapFacts.get_set.
    destruct (ascii_dec x c) as [->|Hne].
    + rewrite ascii_eqb_refl, count_occ_cons_eq by reflexivity.
      destruct (Map_get m c) as [n|]; cbn [Nat.eqb]; f_equal; lia.
    + rewrite count_occ_cons_neq by assumption.
      destruct (Ascii.eqb x c) eqn:E; [|reflexivity].
      apply Ascii.eqb_eq in E. contradiction.
Qed.

Lemma keys_set {V : Type} (m : Map V) (k : ascii) (v : V) :
  map fst (Map_set m k v)
  = if existsb (Ascii.eqb k) (map fst m) then map fst m else map fst m ++ [k].
Proof.
  induction m as [|[k0 v0] m IH]; [reflexivity|].
  cbn [Map_set map fst existsb]. rewrite (Ascii.eqb_sym k k0).
  destruct (Ascii.eqb k0 k); [reflexivity|].
  cbn [map fst orb]. rewrite IH.
  destruct (existsb (Ascii.eqb k) (map fst m)); reflexivity.
Qed.

Lemma fold_keys (data : jsstring) :
  forall m : Map nat,
  map fst
    (fold_left
       (fun freqTable c0 =>
          Map_set freqTable c0
            (match Map_get freqTable c0 with Some n => n | None => 0 end + 1))
       data m)
  = fold_left
      (fun seen c => if existsb (Ascii.eqb c) seen then seen else seen ++ [c])
      data (map fst m).
Proof.
  induction data as [|x data IH]; intros m; [reflexivity|].
  cbn [fold_left]. rewrite IH, keys_set. reflexivity.
Qed.

Lemma list_sum_cons (a : nat) (l : list nat) : list_sum (a :: l) = a + list_sum l.
Proof. reflexivity. Qed.

Lemma sum_set (m : Map nat) (k : ascii) :
  list_sum (map snd
    (Map_set m k (match Map_get m k with Some n => n | None => 0 end + 1)))
  = list_sum (map snd m) + 1.
Proof.
  induction m as [|[k0 v0] m IH]; [reflexivity|].
  cbn [Map_set Map_get]. destruct (Ascii.eqb k0 k).
  - cbn [map snd]. rewrite !list_sum_cons. lia.
  - cbn [map snd]. rewrite !list_sum_cons, IH. lia.
Qed.

Lemma fold_sum (data : jsstring) :
  forall m : Map nat,
  list_sum (map snd
    (fold_left
       (fun freqTable c0 =>
          Map_set freqTable c0
            (match Map_get freqTable c0 with Some n => n | None => 0 end + 1))
       data m))
  = list_sum (map snd m) + length data.
Proof.
  induction data as [|x data IH]; intros m.
  - cbn [fold_left length]. lia.
  - cbn [fold_left length]. rewrite IH, sum_set. lia.
Qed.

(** The counts of the table add up to the number of symbols. *)
Lemma table_sum (data : jsstring) :
  list_sum (map snd (buildFrequencyTable data)) = length data.
Proof. unfold buildFrequencyTable. rewrite fold_sum. reflexivity. Qed.

Lemma keys_in_data (data : jsstring) (a : ascii) :
  In a (map fst (buildFrequencyTable data)) -> In a data.
Proof.
  unfold buildFrequencyTable.
  assert (H : forall m : Map nat,
            In a (map fst
              (fold_left
                 (fun freqTable c0 =>
                    Map_set freqTable c0
                      (match Map_get freqTable c0 with Some n => n | None => 0 end + 1))
                 data m)) -> In a data \/ In a (map fst m)).
  { induction data as [|x data IH]; intros m Hin; [right; exact Hin|].
    cbn [fold_left] in Hin. apply IH in Hin. destruct Hin as [Hin|Hin].
    - left. right. exact Hin.
    - apply MapFacts.keys_set_in in Hin. destruct Hin as [->|Hin].
      + left. left. reflexivity.
      + right. exact Hin. }
  intros Hin. destruct (H [] Hin) as [Hd|[]]. exact Hd.
Qed.

End FrequencyFacts.

(** X1: [buildFrequencyTable(data)] maps every symbol to the number of its
    occurrences in [data] and holds no entry for a symbol that does not occur;
    its keys are the distinct symbols of [data] in the order of their first
    occurrence. *)
Theorem frequency_table_counts (data : jsstring) :
  (forall c : ascii,
     Map_get (buildFrequencyTable data) c
     = if count_occ ascii_dec data c =? 0 then None
       else Some (count_occ ascii_dec data c))
  /\ map fst (buildFrequencyTable data) = first_occurrences data.
Proof.
  split.
  - intros c. unfold buildFrequencyTable. rewrite FrequencyFacts.fold_get.
    reflexivity.
  - unfold buildFrequencyTable, first_occurrences.
    rewrite FrequencyFacts.fold_keys. reflexivity.
Qed.

(** ** The tree of [buildHuffmanTree] *)

Module ForestFacts.
Import Huffman.

Lemma proper_weight (n : HuffmanNode) :
  proper n -> freq n = list_sum (map snd (leaf_weights n)).
Proof.
  induction n as [c f l r | f l r IHl IHr] using HuffmanNode_induction; intros H.
  - cbn [leaf_weights freq map snd]. rewrite FrequencyFacts.list_sum_cons.
    cbn [list_sum fold_right]. lia.
  - destruct l as [l'|], r as [r'|]; cbn [proper] in H; try contradiction.
    destruct H as (Hf & Hl & Hr).
    cbn [leaf_weights freq]. rewrite map_app, list_sum_app.
    rewrite <- (IHl Hl), <- (IHr Hr). exact Hf.
Qed.

Lemma merge_loop_proper (fuel : nat) (nodes : list HuffmanNode) :
  Forall proper nodes -> Forall proper (merge_loop fuel nodes).
Proof.
  revert nodes. induction fuel as [|f IH]; intros nodes Hp; cbn [merge_loop];
    [assumption|].
  destruct (1 <? length nodes); [|assumption].
  assert (Hs : Forall proper (sort nodes)).
  { apply Permutation_Forall with (x := nodes); [|assumption].
    apply Permutation_sym, TreeFacts.sort_perm. }
  destruct (sort nodes) as [|l [|r rest]]; try assumption.
  apply IH.
  inversion Hs as [|? ? Hl Hs']; subst. inversion Hs' as [|? ? Hr Hrest]; subst.
  apply Forall_app. split; [assumption|].
  constructor; [|constructor]. cbn [proper]. auto.
Qed.

Lemma merge_loop_weights (fuel : nat) (nodes : list HuffmanNode) :
  Permutation (flat_map leaf_weights (merge_loop fuel nodes))
    (flat_map leaf_weights nodes).
Proof.
  revert nodes. induction fuel as [|f IH]; intros nodes; cbn [merge_loop];
    [apply Permutation_refl|].
  destruct (1 <? length nodes); [|apply Permutation_refl].
  pose proof (TreeFacts.sort_perm nodes) as Hperm.
  destruct (sort nodes) as [|l [|r rest]]; try apply Permutation_refl.
  eapply perm_trans; [apply IH|].
  apply perm_trans with (l' := flat_map leaf_weights (l :: r :: rest)).
  - rewrite flat_map_app. cbn [flat_map leaf_weights]. rewrite app_nil_r.
    rewrite (app_assoc (leaf_weights l)). apply Permutation_app_comm.
  - apply Permutation_flat_map. assumption.
Qed.

Lemma table_nodes_weights (freqTable : Map nat) :
  flat_map leaf_weights (map (fun '(c, f) => new_node (Some c) f) freqTable)
  = freqTable.
Proof.
  induction freqTable as [|[c f] m IH]; [reflexivity|].
  cbn [map flat_map]. rewrite IH. reflexivity.
Qed.

Lemma table_nodes_proper (freqTable : Map nat) :
  Forall proper (map (fun '(c, f) => new_node (Some c) f) freqTable).
Proof.
  induction freqTable as [|[c f] m IH]; constructor; [exact I | exact IH].
Qed.

(** What [buildHuffmanTree] returns on any table. *)
Lemma tree_of_table (freqTable : Map nat) :
  match buildHuffmanTree freqTable with
  | None => freqTable = []
  | Some root =>
      freqTable <> [] /\ proper root
      /\ Permutation (leaf_weights root) freqTable
  end.
Proof.
  unfold buildHuffmanTree. cbn zeta.
  pose proof (table_nodes_weights freqTable) as Hw.
  pose proof (table_nodes_proper freqTable) as Hp.
  assert (Hlen : length (map (fun '(c, f) => new_node (Some c) f) freqTable)
                 = length freqTable) by apply length_map.
  remember (map (fun '(c, f) => new_node (Some c) f) freqTable) as nodes eqn:En.
  clear En.
  assert (Hne : forall n, length freqTable = S n -> freqTable <> []).
  { intros n Hn ->. discriminate Hn. }
  destruct (length nodes =? 0) eqn:E0.
  - apply Nat.eqb_eq in E0. destruct freqTable; [reflexivity|].
    cbn [length] in Hlen. lia.
  - apply Nat.eqb_neq in E0.
    destruct (length nodes =? 1) eqn:E1.
    + apply Nat.eqb_eq in E1.
      destruct nodes as [|n [|? ?]]; try discriminate.
      cbn [nth_error]. split; [apply (Hne 0); simpl in Hlen; lia|].
      split; [inversion Hp; assumption|].
      rewrite <- Hw. simpl. rewrite app_nil_r. apply Permutation_refl.
    + pose proof (@TreeFacts.merge_loop_length (length nodes) nodes) as Hone.
      pose proof (merge_loop_weights (length nodes) nodes) as Hperm.
      pose proof (merge_loop_proper (length nodes) Hp) as Hprop.
      destruct (merge_loop (length nodes) nodes) as [|n [|? ?]];
        simpl in Hone; try lia.
      cbn [nth_error]. split.
      * destruct freqTable; [simpl in Hlen; lia | discriminate].
      * split; [inversion Hprop; assumption|].
        rewrite <- Hw. simpl in Hperm. rewrite app_nil_r in Hperm. exact Hperm.
Qed.

End ForestFacts.

(** X2: [buildHuffmanTree(buildFrequencyTable(data))] is [null] exactly for
    the empty input; otherwise it is a proper binary tree (every node is a
    leaf with a symbol or has two children and the sum of their weights),
    its leaves are exactly the entries of the frequency table, and the
    weight of its root is the number of symbols of [data]. *)
Theorem huffman_tree_shape (data : jsstring) :
  match buildHuffmanTree (buildFrequencyTable data) with
  | None => data = []
  | Some root =>
      data <> [] /\ proper root
      /\ Permutation (leaf_weights root) (buildFrequencyTable data)
      /\ freq root = length data
  end.
Proof.
  pose proof (ForestFacts.tree_of_table (buildFrequencyTable data)) as H.
  pose proof (FrequencyFacts.table_sum data) as Hsum.
  destruct (buildHuffmanTree (buildFrequencyTable data)) as [root|].
  - destruct H as (Hne & Hproper & Hperm).
    split; [|split; [assumption | split; [assumption|]]].
    + intros ->. apply Hne. reflexivity.
    + rewrite (ForestFacts.proper_weight _ Hproper).
      rewrite (Permutation_list_sum (Permutation_map snd Hperm)). exact Hsum.
  - rewrite H in Hsum. destruct data; [reflexivity | discriminate Hsum].
Qed.

(** ** The code table and the payload of [huffmanCompress] *)

Module CodeFacts.
Import Huffman.

Lemma generateCodes_node_bits (n : HuffmanNode) :
  forall (code : jsstring) (codes : Map jsstring),
  Forall is_bit code -> bit_table codes ->
  bit_table (generateCodes_node n code codes).
Proof.
  induction n as [c f l r | f l r IHl IHr] using HuffmanNode_induction;
    intros code codes Hcode Hcodes.
  - cbn [generateCodes_node]. intros a ca. rewrite MapFacts.get_set.
    destruct (Ascii.eqb c a); [|apply Hcodes].
    intros H. injection H as <-.
    destruct code; [|assumption].
    constructor; [left; reflexivity | constructor].
  - cbn [generateCodes_node].
    assert (H0 : Forall is_bit (code ++ str "0")).
    { apply Forall_app. split; [assumption|].
      constructor; [left; reflexivity | constructor]. }
    assert (H1 : Forall is_bit (code ++ str "1")).
    { apply Forall_app. split; [assumption|].
      constructor; [right; reflexivity | constructor]. }
    assert (Hleft : bit_table
              match l with
              | Some l' => generateCodes_node l' (code ++ str "0") codes
              | None => codes
              end).
    { destruct l; [apply IHl; assumption | assumption]. }
    destruct r; [apply IHr; assumption | assumption].
Qed.

Lemma code_table_bits (data : jsstring) : bit_table (code_table data).
Proof.
  unfold code_table, generateCodes.
  destruct (buildHuffmanTree (buildFrequencyTable data)) as [root|].
  - apply generateCodes_node_bits; [constructor|]. intros a ca H. discriminate H.
  - intros a ca H. discriminate H.
Qed.

(** Only symbols of the input have a code. *)
Lemma code_table_domain (data : jsstring) (a : ascii) (ca : jsstring) :
  Map_get (code_table data) a = Some ca -> In a data.
Proof.
  unfold code_table.
  set (root := buildHuffmanTree (buildFrequencyTable data)).
  assert (Hnd : NoDup (leaves_of root)).
  { apply TreeFacts.tree_leaves_NoDup, frequency_keys_NoDup. }
  destruct (HuffmanFacts.codes_below_all root Hnd [] []) as (Hout & _ & _).
  intros Hget.
  destruct (in_dec ascii_dec a (leaves_of root)) as [Hin|Hnot].
  - apply FrequencyFacts.keys_in_data.
    apply Permutation_in with (l := leaves_of root); [|exact Hin].
    apply TableFacts.tree_leaves_perm.
  - rewrite (Hout a Hnot) in Hget. discriminate Hget.
Qed.

(** The codes of two distinct symbols are not prefixes of one another. *)
Lemma code_table_apart (data : jsstring) (a b : ascii) (ca cb : jsstring) :
  a <> b ->
  Map_get (code_table data) a = Some ca -> Map_get (code_table data) b = Some cb ->
  ~ is_prefix ca cb.
Proof.
  unfold code_table.
  set (root := buildHuffmanTree (buildFrequencyTable data)).
  assert (Hnd : NoDup (leaves_of root)).
  { apply TreeFacts.tree_leaves_NoDup, frequency_keys_NoDup. }
  destruct (HuffmanFacts.codes_below_all root Hnd [] []) as (Hout & _ & Hin).
  intros Hab Hga Hgb.
  assert (Hmem : forall x cx, Map_get (generateCodes root [] []) x = Some cx ->
                   In x (leaves_of root)).
  { intros x cx Hget.
    destruct (in_dec ascii_dec x (leaves_of root)) as [H|H]; [assumption|].
    rewrite (Hout x H) in Hget. discriminate. }
  apply (Hin a b ca cb); eauto.
Qed.

Lemma app_prefix_cases (ca cb x y : jsstring) :
  ca ++ x = cb ++ y -> is_prefix ca cb \/ is_prefix cb ca.
Proof.
  revert cb. induction ca as [|c ca IH]; intros cb H.
  - left. exists cb. reflexivity.
  - destruct cb as [|d cb].
    + right. exists (c :: ca). reflexivity.
    + injection H as -> H. destruct (IH cb H) as [[r ->]|[r ->]].
      * left. exists r. reflexivity.
      * right. exists r. reflexivity.
Qed.

Lemma encode_cons (codes : Map jsstring) (a : ascii) (x ca : jsstring) :
  Map_get codes a = Some ca ->
  Huffman_encode codes (a :: x) = ca ++ Huffman_encode codes x.
Proof. intros H. unfold Huffman_encode. cbn [flat_map]. rewrite H. reflexivity. Qed.

End CodeFacts.

(** X3: the code table [generateCodes] builds for [data] holds a code for a
    symbol exactly when the symbol occurs in [data], and every code is a
    non-empty string of the bits "0" and "1". *)
Theorem huffman_code_table_entries (data : jsstring) (a : ascii) :
  match Map_get (generateCodes (buildHuffmanTree (buildFrequencyTable data)) [] []) a with
  | Some ca => In a data /\ ca <> [] /\ Forall is_bit ca
  | None => ~ In a data
  end.
Proof.
  fold (code_table data).
  destruct (Map_get (code_table data) a) as [ca|] eqn:Hget.
  - pose proof (CodeFacts.code_table_domain data a Hget) as Hin.
    split; [exact Hin|]. split.
    + destruct (code_table_defined data a Hin) as (ca' & Hget' & Hne).
      congruence.
    + exact (CodeFacts.code_table_bits data a Hget).
  - intros Hin. destruct (code_table_defined data a Hin) as (ca' & Hget' & _).
    congruence.
Qed.

(** X4: the Huffman encoding with the table of [data] is uniquely
    decodable: two texts over the symbols of [data] whose codes concatenate
    to the same bit string are the same text. *)
Theorem huffman_uniquely_decodable (data x y : jsstring) :
  (forall a, In a x -> In a data) -> (forall a, In a y -> In a data) ->
  Huffman_encode (code_table data) x = Huffman_encode (code_table data) y ->
  x = y.
Proof.
  revert y. induction x as [|a x IH]; intros y Hx Hy Heq.
  - destruct y as [|b y]; [reflexivity|].
    destruct (code_table_defined data b (Hy b (or_introl eq_refl)))
      as (cb & Hgb & Hne).
    rewrite (@CodeFacts.encode_cons _ _ y _ Hgb) in Heq.
    destruct cb; [congruence | discriminate Heq].
  - destruct (code_table_defined data a (Hx a (or_introl eq_refl)))
      as (ca & Hga & Hnea).
    rewrite (@CodeFacts.encode_cons _ _ x _ Hga) in Heq.
    destruct y as [|b y].
    + destruct ca; [congruence | discriminate Heq].
    + destruct (code_table_defined data b (Hy b (or_introl eq_refl)))
        as (cb & Hgb & Hneb).
      rewrite (@CodeFacts.encode_cons _ _ y _ Hgb) in Heq.
      assert (Hab : a = b).
      { destruct (ascii_dec a b) as [E|N]; [exact E|]. exfalso.
        destruct (CodeFacts.app_prefix_cases _ _ _ _ Heq) as [Hp|Hp].
        - exact (CodeFacts.code_table_apart data N Hga Hgb Hp).
        - apply (@CodeFacts.code_table_apart data b a cb ca); auto. }
      subst b. assert (ca = cb) by congruence. subst cb.
      apply app_inv_head in Heq. f_equal.
      apply IH; auto.
      * intros c Hc. apply Hx. right. exact Hc.
      * intros c Hc. apply Hy. right. exact Hc.
Qed.

Lemma huffman_uniquely_decodable_witness :
  (forall a, In a (str "abba") -> In a (str "abracadabra"))
  /\ (forall y : jsstring,
        (forall a, In a y -> In a (str "abracadabra")) ->
        Huffman_encode (code_table (str "abracadabra")) y
        = Huffman_encode (code_table (str "abracadabra")) (str "abba") ->
        y = str "abba").
Proof.
  assert (Hx : forall a, In a (str "abba") -> In a (str "abracadabra")).
  { intros a Ha. simpl in Ha. simpl. intuition. }
  split; [exact Hx|].
  intros y Hy Heq.
  apply (@huffman_uniquely_decodable (str "abracadabra") y (str "abba") Hy Hx Heq).
Defined.

(** X5: the payload of [huffmanCompress(data)] is the concatenation of the
    codes of the symbols of [data]; it is a string of the bits "0" and "1"
    with at least one bit for every symbol of [data]. *)
Theorem huffman_payload_bits
    (JSON_stringify_codes : Map jsstring -> jsstring) (data : jsstring) :
  compressedData (huffmanCompress JSON_stringify_codes data)
  = Huffman_encode (code_table data) data
  /\ Forall is_bit (compressedData (huffmanCompress JSON_stringify_codes data))
  /\ length data <= length (compressedData (huffmanCompress JSON_stringify_codes data)).
Proof.
  split; [reflexivity|].
  change (compressedData (huffmanCompress JSON_stringify_codes data))
    with (Huffman_encode (code_table data) data).
  assert (H : forall x, (forall a, In a x -> In a data) ->
            Forall is_bit (Huffman_encode (code_table data) x)
            /\ length x <= length (Huffman_encode (code_table data) x)).
  { induction x as [|a x IH]; intros Hx.
    - split; [constructor | apply le_n].
    - destruct (code_table_defined data a (Hx a (or_introl eq_refl)))
        as (ca & Hga & Hne).
      rewrite (@CodeFacts.encode_cons _ _ x _ Hga).
      destruct IH as [Hbits Hlen]; [intros c Hc; apply Hx; right; exact Hc|].
      split.
      + apply Forall_app. split; [|exact Hbits].
        exact (CodeFacts.code_table_bits data a Hga).
      + rewrite length_app. destruct ca; [congruence|]. simpl. lia. }
  apply H. auto.
Qed.

(** ** Run-length encoding: sizes *)

Module RLESizeFacts.

Lemma Blob_size_cons (c : ascii) (s : jsstring) :
  Blob_size (c :: s) = utf8_bytes c + Blob_size s.
Proof. reflexivity. Qed.

Lemma Blob_size_app (a b : jsstring) : Blob_size (a ++ b) = Blob_size a + Blob_size b.
Proof.
  induction a as [|c a IH]; [reflexivity|].
  cbn [app]. rewrite !Blob_size_cons, IH. lia.
Qed.

Lemma Blob_size_repeat (c : ascii) (k : nat) :
  Blob_size (repeat c k) = k * utf8_bytes c.
Proof.
  induction k as [|k IH]; [reflexivity|].
  cbn [repeat]. rewrite Blob_size_cons, IH. lia.
Qed.

Lemma Blob_size_digits (s : jsstring) : all_digits s -> Blob_size s = length s.
Proof.
  induction 1 as [|c s Hc Hs IH]; [reflexivity|].
  rewrite Blob_size_cons, IH. cbn [length].
  unfold is_digit in Hc. apply andb_prop in Hc. destruct Hc as [_ Hc].
  apply Nat.leb_le in Hc. unfold utf8_bytes.
  replace (nat_of_ascii c <? 128) with true; [reflexivity|].
  symmetry. apply Nat.ltb_lt. lia.
Qed.

(** A count up to 255 has at most three digits. *)
Lemma toString_short (k : nat) : k <= 255 -> length (Number_toString k) <= 3.
Proof.
  intros Hk.
  assert (H : forallb (fun n => length (Number_toString n) <=? 3) (seq 0 256) = true)
    by (vm_compute; reflexivity).
  rewrite forallb_forall in H. apply Nat.leb_le, H, in_seq. lia.
Qed.

Lemma utf8_bytes_range (c : ascii) : 1 <= utf8_bytes c <= 2.
Proof. unfold utf8_bytes. destruct (nat_of_ascii c <? 128); lia. Qed.

(** What one run appends is no longer than the run, in units and in bytes. *)
Lemma emit_sizes (c : ascii) (k : nat) :
  1 <= k <= 255 ->
  length (RLE.emit c k) <= k /\ Blob_size (RLE.emit c k) <= k * utf8_bytes c.
Proof.
  intros Hk. unfold RLE.emit.
  pose proof (utf8_bytes_range c) as Hb.
  assert (Hunit : Blob_size [c] = utf8_bytes c).
  { rewrite Blob_size_cons. cbn [Blob_size fold_right]. lia. }
  destruct (3 <? k) eqn:E3.
  - apply Nat.ltb_lt in E3. cbn [orb].
    pose proof (@toString_short k (proj2 Hk)) as Hs.
    rewrite length_app, Blob_size_app, Hunit.
    rewrite (Blob_size_digits (toString_all_digits k)).
    cbn [length]. split; [lia | nia].
  - apply Nat.ltb_ge in E3. cbn [orb].
    destruct ((1 <? k) && non_alphanumeric c) eqn:E1.
    + apply andb_prop in E1. destruct E1 as [E1 _]. apply Nat.ltb_lt in E1.
      assert (Hcases : k = 2 \/ k = 3) by lia.
      destruct Hcases as [-> | ->].
      * change (Number_toString 2) with (str "2").
        rewrite Blob_size_app, Hunit.
        change (Blob_size (str "2")) with 1.
        change (length (str "2" ++ [c])) with 2. lia.
      * change (Number_toString 3) with (str "3").
        rewrite Blob_size_app, Hunit.
        change (Blob_size (str "3")) with 1.
        change (length (str "3" ++ [c])) with 2. lia.
    + unfold repeat_char. rewrite repeat_length, Blob_size_repeat. lia.
Qed.

Lemma rle_text_sizes (bound : nat) :
  forall data : jsstring,
  length data <= bound ->
  length (rle_text data) <= length data
  /\ Blob_size (rle_text data) <= Blob_size data.
Proof.
  induction bound as [|bound IH]; intros data Hlen.
  - destruct data; [split; apply le_n | simpl in Hlen; lia].
  - destruct data as [|c rest]; [split; apply le_n|].
    pose proof (rle_text_cons c rest) as Htext. cbn zeta in Htext.
    remember (c :: rest) as s eqn:Es.
    assert (Hrun : 1 <= run_length c s).
    { subst s. cbn [run_length]. rewrite ascii_eqb_refl. lia. }
    pose proof (run_length_le c s) as Hle.
    remember (Nat.min 255 (run_length c s)) as k eqn:Ek.
    assert (Hk : 1 <= k <= 255) by lia.
    assert (Hsplit : s = repeat c k ++ skipn k s).
    { rewrite <- (run_length_firstn c s (n := k)) by lia.
      symmetry. apply firstn_skipn. }
    destruct (IH (skipn k s)) as [Hl Hb]; [rewrite length_skipn; lia|].
    destruct (emit_sizes c Hk) as [Hel Heb].
    rewrite Htext, length_app, Blob_size_app.
    rewrite length_skipn in Hl.
    split; [lia|].
    rewrite Hsplit at 2. rewrite Blob_size_app, Blob_size_repeat. lia.
Qed.

End RLESizeFacts.

(** X6: [rleCompress] never expands its input: the compressed text has at
    most as many units as [data], and the reported [compressedSize] is at
    most the reported [originalSize]. *)
Theorem rle_never_expands (data : jsstring) :
  length (compressedData (rleCompress data)) <= length data
  /\ compressedSize (rleCompress data) <= originalSize (rleCompress data).
Proof.
  exact (@RLESizeFacts.rle_text_sizes (length data) data (le_n _)).
Qed.

(** ** Run-length encoding: the decoder, token by token *)

Module RLETokenFacts.
Import RLE.









End RLETokenFacts.



Module RLEFailureFacts.





End RLEFailureFacts.


(** ** LZ77: what a triple says about the text *)

Module TripleFacts.
Import LZ77.

Lemma substring_slice (s : jsstring) (a b : nat) :
  a <= b -> a <= length s -> substring s a b = firstn (b - a) (skipn a s).
Proof.
  intros Hab Ha. unfold substring. cbn zeta.
  rewrite (Nat.min_l a (length s)) by lia.
  rewrite (Nat.min_l a (Nat.min b (length s))) by lia.
  rewrite (Nat.max_r a (Nat.min b (length s))) by lia.
  destruct (Nat.le_gt_cases b (length s)) as [Hb|Hb].
  - rewrite (Nat.min_l b) by lia. reflexivity.
  - rewrite (Nat.min_r b) by lia.
    rewrite !firstn_all2 by (rewrite length_skipn; lia). reflexivity.
Qed.

Lemma slice_index (s : jsstring) (a n k : nat) :
  k < n -> index (firstn n (skipn a s)) k = index s (a + k).
Proof.
  intros Hk. unfold index. rewrite nth_error_firstn, nth_error_skipn.
  replace (k <? n) with true; [reflexivity|]. symmetry. apply Nat.ltb_lt. lia.
Qed.

Lemma window_length (data : jsstring) (i : nat) :
  i <= length data -> length (window_at data i) = i - (i - windowSize).
Proof.
  intros Hi. unfold window_at. rewrite Nat.max_0_l.
  rewrite substring_slice by lia.
  rewrite length_firstn, length_skipn. lia.
Qed.

Lemma window_index (data : jsstring) (i j : nat) :
  i <= length data -> j < length (window_at data i) ->
  index (window_at data i) j = index data (i - windowSize + j).
Proof.
  intros Hi Hj. rewrite window_length in Hj by assumption.
  unfold window_at. rewrite Nat.max_0_l.
  rewrite substring_slice by lia. apply slice_index. lia.
Qed.

Lemma lookAhead_length (data : jsstring) (i : nat) :
  i <= length data ->
  length (lookAhead_at data i) = Nat.min lookAheadSize (length data - i).
Proof.
  intros Hi. unfold lookAhead_at. rewrite substring_slice by lia.
  rewrite length_firstn, length_skipn. lia.
Qed.

Lemma lookAhead_index (data : jsstring) (i k : nat) :
  i <= length data -> k < length (lookAhead_at data i) ->
  index (lookAhead_at data i) k = index data (i + k).
Proof.
  intros Hi Hk. rewrite lookAhead_length in Hk by assumption.
  unfold lookAhead_at. rewrite substring_slice by lia. apply slice_index. lia.
Qed.

(** The triple of every cursor describes the text. *)
Lemma token_at_valid (data : jsstring) (i : nat) :
  i < length data -> valid_triple data i (token_at data i).
Proof.
  intros Hi. unfold valid_triple, token_at. cbn zeta.
  cbn [Token.offset Token.length Token.nextChar].
  pose proof (@window_length data i (Nat.lt_le_incl _ _ Hi)) as Hw.
  pose proof (@lookAhead_length data i (Nat.lt_le_incl _ _ Hi)) as Hla.
  pose proof (LZ77Facts.find_best_length_le_offset
                (window_at data i) (lookAhead_at data i)) as Hlo.
  destruct (LZ77Facts.find_best_spec (window_at data i) (lookAhead_at data i))
    as [_ Hcase].
  remember (find_best (window_at data i) (lookAhead_at data i)) as b eqn:Eb.
  assert (Hnext : (if i + Match.length b <? length data
                   then match index data (i + Match.length b) with
                        | Some c => [c]
                        | None => []
                        end
                   else [])
                  = match index data (i + Match.length b) with
                    | Some c => [c]
                    | None => []
                    end).
  { destruct (i + Match.length b <? length data) eqn:E; [reflexivity|].
    apply Nat.ltb_ge in E.
    replace (index data (i + Match.length b)) with (@None ascii); [reflexivity|].
    symmetry. apply nth_error_None. exact E. }
  destruct Hcase as [[H0 Hoff]|(j & Hj & Hpos & Hlen & Hoff & _)].
  - rewrite H0, Hoff in *.
    do 5 (split; [lia|]). split; [|exact Hnext].
    intros k Hk. lia.
  - rewrite LZ77Facts.match_length_spec in Hlen. unfold window_match in Hlen.
    pose proof (LZ77Facts.common_prefix_le
                  (skipn j (window_at data i)) (lookAhead_at data i)) as Hcp.
    do 5 (split; [lia|]). split; [|exact Hnext].
    intros k Hk.
    assert (Hk' : k < common_prefix (skipn j (window_at data i))
                        (lookAhead_at data i)) by lia.
    pose proof (LZ77Facts.common_prefix_index _ _ Hk') as Heq.
    unfold index in Heq. rewrite nth_error_skipn in Heq.
    fold (index (window_at data i) (j + k)) in Heq.
    fold (index (lookAhead_at data i) k) in Heq.
    rewrite window_index in Heq by lia.
    rewrite lookAhead_index in Heq by lia.
    rewrite <- Heq. f_equal. lia.
Qed.

End TripleFacts.

(** X9: every triple [lz77Compress] emits describes the text at its
    cursor [i]: length <= offset <= i, offset <= windowSize, length <=
    lookAheadSize, the match ends inside the text, the [length] symbols
    that start [offset] places before the cursor are the symbols that start
    at the cursor, and [nextChar] is the symbol behind the match (empty at
    the end of the text). *)
Theorem lz77_triples_describe_text (data : jsstring) (k : nat) (t : Token.t) :
  nth_error (LZ77.encode data) k = Some t ->
  exists i,
    nth_error (cursors data) k = Some i /\ i < length data
    /\ valid_triple data i t.
Proof.
  rewrite LZ77Facts.encode_cursors, nth_error_map.
  destruct (nth_error (cursors data) k) as [i|] eqn:Ei; simpl; [|discriminate].
  intros H. injection H as <-. exists i.
  assert (Hi : i < length data).
  { pose proof (@LZ77Facts.cursor_loop_lt (length data) data 0 [] (Forall_nil _)) as Hlt.
    rewrite Forall_forall in Hlt. apply Hlt. apply nth_error_In with k. exact Ei. }
  split; [reflexivity|]. split; [exact Hi|].
  apply TripleFacts.token_at_valid. exact Hi.
Qed.

Lemma lz77_triples_describe_text_witness :
  exists i,
    nth_error (cursors (str "abcabcab")) 3 = Some i /\ i < length (str "abcabcab")
    /\ valid_triple (str "abcabcab") i (Token.mk 3 3 (str "a")).
Proof.
  apply (lz77_triples_describe_text (str "abcabcab") 3). vm_compute. reflexivity.
Defined.

(** ** LZ77: the cursor covers the text *)

Module CoverFacts.
Import LZ77.

Lemma encode_loop_acc (fuel : nat) (data : jsstring) (i : nat) (acc : list Token.t) :
  encode_loop fuel data i acc = acc ++ encode_loop fuel data i [].
Proof.
  revert i acc. induction fuel as [|f IH]; intros i acc; cbn [encode_loop].
  - rewrite app_nil_r. reflexivity.
  - destruct (i <? length data); [|rewrite app_nil_r; reflexivity].
    rewrite (IH _ (acc ++ _)), (IH _ ([] ++ _)).
    rewrite <- app_assoc. reflexivity.
Qed.

(** One turn of the loop: the triple of the cursor, then the rest. *)
Lemma encode_loop_step (f : nat) (data : jsstring) (i : nat) :
  i < length data ->
  encode_loop (S f) data i []
  = token_at data i :: encode_loop f data (i + advance (token_at data i)) [].
Proof.
  intros Hi. cbn [encode_loop].
  replace (i <? length data) with true by (symmetry; apply Nat.ltb_lt; exact Hi).
  rewrite encode_loop_acc. reflexivity.
Qed.

Lemma encode_loop_done (fuel : nat) (data : jsstring) (i : nat) :
  length data <= i -> encode_loop fuel data i [] = [].
Proof.
  intros Hi. destruct fuel as [|f]; [reflexivity|]. cbn [encode_loop].
  replace (i <? length data) with false; [reflexivity|].
  symmetry. apply Nat.ltb_ge. exact Hi.
Qed.

Lemma advance_range (data : jsstring) (i : nat) :
  i < length data ->
  1 <= advance (token_at data i) <= lookAheadSize
  /\ i + advance (token_at data i) <= length data.
Proof.
  intros Hi. destruct (@TripleFacts.token_at_valid data i Hi) as (_ & _ & _ & H18 & Hend & _).
  unfold advance. assert (1 <= lookAheadSize) by (unfold lookAheadSize; lia). lia.
Qed.

Lemma cover_from (fuel : nat) (data : jsstring) (i : nat) :
  length data - i <= fuel -> i <= length data ->
  list_sum (map advance (encode_loop fuel data i [])) = length data - i.
Proof.
  revert i. induction fuel as [|f IH]; intros i Hfuel Hi.
  - cbn [encode_loop map list_sum fold_right]. lia.
  - destruct (Nat.eq_dec i (length data)) as [->|Hne].
    + rewrite encode_loop_done by lia. cbn [map list_sum fold_right]. lia.
    + assert (Hlt : i < length data) by lia.
      destruct (@advance_range data i Hlt) as [Hadv Hend].
      rewrite encode_loop_step by assumption.
      cbn [map]. rewrite FrequencyFacts.list_sum_cons, IH by lia. lia.
Qed.

Lemma sum_between (tokens : list Token.t) :
  Forall (fun t => 1 <= advance t <= lookAheadSize) tokens ->
  length tokens <= list_sum (map advance tokens)
  /\ list_sum (map advance tokens) <= lookAheadSize * length tokens.
Proof.
  induction 1 as [|t tokens Ht Hts IH]; [cbn; lia|].
  cbn [map length]. rewrite FrequencyFacts.list_sum_cons. lia.
Qed.

Lemma encode_advances (data : jsstring) :
  Forall (fun t => 1 <= advance t <= lookAheadSize) (encode data).
Proof.
  rewrite LZ77Facts.encode_cursors. apply Forall_forall. intros t Hin.
  apply in_map_iff in Hin. destruct Hin as (i & <- & Hi).
  apply advance_range.
  pose proof (@LZ77Facts.cursor_loop_lt (length data) data 0 [] (Forall_nil _)) as Hlt.
  rewrite Forall_forall in Hlt. apply Hlt. exact Hi.
Qed.

End CoverFacts.

(** X10: the triples of [lz77Compress] cover the text exactly: the cursor
    advances [Math.max(1, length)] of the triples add up to the number of
    units of [data].  Hence there are at most as many triples as units and
    at least one triple for every [lookAheadSize] units, and the reported
    [compressedSize] (6 per triple) lies between a third of the length and
    six times the length. *)
Theorem lz77_triples_cover_text
    (JSON_stringify_tokens : list Token.t -> jsstring) (data : jsstring) :
  list_sum (map advance (LZ77.encode data)) = length data
  /\ length (LZ77.encode data) <= length data
  /\ length data <= LZ77.lookAheadSize * length (LZ77.encode data)
  /\ compressedSize (lz77Compress JSON_stringify_tokens data) <= 6 * length data
  /\ length data <= 3 * compressedSize (lz77Compress JSON_stringify_tokens data).
Proof.
  assert (Hsum : list_sum (map advance (LZ77.encode data)) = length data).
  { unfold LZ77.encode. rewrite CoverFacts.cover_from by lia. lia. }
  destruct (CoverFacts.sum_between (CoverFacts.encode_advances data)) as [Hlo Hhi].
  rewrite Hsum in Hlo, Hhi.
  unfold lz77Compress. cbn [compressedSize].
  unfold LZ77.lookAheadSize in *.
  repeat split; try assumption; lia.
Qed.

(** ** LZ77: when a literal triple is emitted *)

Module LiteralFacts.
Import LZ77.

Lemma common_prefix_pos (a b : jsstring) :
  0 < common_prefix a b <-> exists c, index a 0 = Some c /\ index b 0 = Some c.
Proof.
  destruct a as [|x a], b as [|y b]; cbn [common_prefix index nth_error].
  - split; [lia | intros (c & H & _); discriminate].
  - split; [lia | intros (c & H & _); discriminate].
  - split; [lia | intros (c & _ & H); discriminate].
  - destruct (Ascii.eqb x y) eqn:E.
    + apply Ascii.eqb_eq in E. subst y.
      split; [intros _; exists x; split; reflexivity | lia].
    + apply Ascii.eqb_neq in E.
      split; [lia | intros (c & Hx & Hy); congruence].
Qed.

(** A window start matches at all exactly when it holds the unit the
    look-ahead begins with. *)
Lemma window_match_pos (w la : jsstring) (j : nat) :
  0 < window_match w la j <-> exists c, index w j = Some c /\ index la 0 = Some c.
Proof.
  unfold window_match.
  assert (Hidx : index (skipn j w) 0 = index w j).
  { unfold index. rewrite nth_error_skipn, Nat.add_0_r. reflexivity. }
  rewrite <- Hidx, <- common_prefix_pos.
  unfold lookAheadSize. lia.
Qed.

Lemma lookAhead_head (data : jsstring) (i : nat) :
  i < length data -> index (lookAhead_at data i) 0 = index data i.
Proof.
  intros Hi. rewrite TripleFacts.lookAhead_index; [rewrite Nat.add_0_r; reflexivity|lia|].
  rewrite TripleFacts.lookAhead_length by lia. unfold lookAheadSize. lia.
Qed.

End LiteralFacts.

(** X11: at a cursor [i] holding the unit [c], [lz77Compress] pushes the
    literal triple (0, 0, c) exactly when [c] does not occur in the window;
    a unit seen in the window always gives a back-reference. *)
Theorem lz77_literal_iff_unseen (data : jsstring) (i : nat) (c : ascii) :
  index data i = Some c ->
  (LZ77.token_at data i = Token.mk 0 0 [c] <-> ~ In c (LZ77.window_at data i)).
Proof.
  intros Hc.
  assert (Hi : i < length data) by (apply nth_error_Some; unfold index in Hc; congruence).
  pose proof (@LiteralFacts.lookAhead_head data i Hi) as Hhead. rewrite Hc in Hhead.
  destruct (LZ77Facts.find_best_spec (LZ77.window_at data i) (LZ77.lookAhead_at data i))
    as [Hmax Hcase].
  split.
  - intros Htok Hin.
    apply In_nth_error in Hin. destruct Hin as [j Hj].
    assert (Hjw : j < length (LZ77.window_at data i))
      by (apply nth_error_Some; congruence).
    specialize (Hmax j Hjw). rewrite LZ77Facts.match_length_spec in Hmax.
    assert (Hpos : 0 < window_match (LZ77.window_at data i) (LZ77.lookAhead_at data i) j)
      by (apply LiteralFacts.window_match_pos; exists c; split; assumption).
    apply (f_equal Token.length) in Htok. unfold LZ77.token_at in Htok.
    cbn [Token.length] in Htok. lia.
  - intros Hnot. unfold LZ77.token_at. cbn zeta.
    destruct Hcase as [[Hl Ho]|(j & Hj & Hpos & Hlen & _)].
    + rewrite Hl, Ho, Nat.add_0_r.
      replace (i <? length data) with true by (symmetry; apply Nat.ltb_lt; exact Hi).
      rewrite Hc. reflexivity.
    + exfalso. apply Hnot.
      rewrite Hlen, LZ77Facts.match_length_spec in Hpos.
      apply LiteralFacts.window_match_pos in Hpos.
      destruct Hpos as (c' & Hw & Hla).
      assert (c' = c) by congruence. subst c'.
      apply (nth_error_In _ j). exact Hw.
Qed.

Lemma lz77_literal_iff_unseen_witness :
  index (str "abca") 2 = Some "c"%char
  /\ (LZ77.token_at (str "abca") 2 = Token.mk 0 0 ["c"%char]
      <-> ~ In "c"%char (LZ77.window_at (str "abca") 2)).
Proof.
  split; [reflexivity|].
  apply (@lz77_literal_iff_unseen (str "abca") 2 "c"%char). reflexivity.
Defined.

(** ** LZ77: what the decoder appends for one triple *)

Module CopyFacts.
Import LZ77.

Lemma unit_text_in (decompressed : jsstring) (n : nat) (c : ascii) :
  index decompressed n = Some c -> unit_text decompressed (Z.of_nat n) = [c].
Proof.
  intros Hc. unfold unit_text.
  replace (Z.of_nat n <? 0)%Z with false by (symmetry; apply Z.ltb_ge; lia).
  rewrite Nat2Z.id, Hc. reflexivity.
Qed.

Lemma index_of_firstn (out cur : jsstring) (k : nat) :
  firstn (length cur) out = cur -> k < length cur -> index out k = index cur k.
Proof.
  intros Hpre Hk.
  transitivity (index (firstn (length cur) out) k); [|rewrite Hpre; reflexivity].
  unfold index. rewrite nth_error_firstn.
  replace (k <? length cur) with true; [reflexivity|].
  symmetry. apply Nat.ltb_lt. exact Hk.
Qed.

(** The copy loop with the read position [start + i] inside the text built
    so far: every turn appends one unit, the unit [offset] places back. *)
Lemma copy_loop_inv (remaining start i offset : nat) (cur : jsstring) :
  1 <= offset -> start + i + offset = length cur ->
  length (copy_loop remaining (Z.of_nat start) i cur) = length cur + remaining
  /\ firstn (length cur) (copy_loop remaining (Z.of_nat start) i cur) = cur
  /\ forall k, length cur <= k < length cur + remaining ->
       index (copy_loop remaining (Z.of_nat start) i cur) k
       = index (copy_loop remaining (Z.of_nat start) i cur) (k - offset).
Proof.
  revert i cur. induction remaining as [|r IH]; intros i cur Ho Hpos; cbn [copy_loop].
  - split; [lia|]. split; [apply firstn_all|]. intros k Hk. lia.
  - destruct (index cur (start + i)) as [c|] eqn:Ec.
    2:{ apply nth_error_None in Ec. lia. }
    rewrite <- Nat2Z.inj_add, (unit_text_in _ _ Ec).
    assert (Hlen : length (cur ++ [c]) = S (length cur))
      by (rewrite length_app; cbn [length]; lia).
    destruct (IH (S i) (cur ++ [c]) Ho) as (Hl & Hpre & Hcopy); [lia|].
    remember (copy_loop r (Z.of_nat start) (S i) (cur ++ [c])) as out eqn:Eout.
    clear Eout. rewrite Hlen in Hl, Hpre, Hcopy.
    assert (Hcur : firstn (length cur) out = cur).
    { transitivity (firstn (length cur) (firstn (S (length cur)) out)).
      { rewrite firstn_firstn, Nat.min_l by lia. reflexivity. }
      rewrite Hpre.
      rewrite firstn_app, Nat.sub_diag, firstn_all. cbn [firstn]. apply app_nil_r. }
    assert (Hsnoc : forall k, k < S (length cur) -> index out k = index (cur ++ [c]) k).
    { intros k Hk. apply index_of_firstn; [rewrite Hlen; exact Hpre | lia]. }
    split; [lia|]. split; [exact Hcur|].
    intros k Hk. destruct (Nat.eq_dec k (length cur)) as [->|Hne].
    + rewrite !Hsnoc by lia. unfold index in *.
      rewrite nth_error_app2, Nat.sub_diag by lia.
      rewrite nth_error_app1 by lia.
      replace (length cur - offset) with (start + i) by lia.
      rewrite Ec. reflexivity.
    + apply Hcopy. lia.
Qed.

(** The effect of one triple on a text that reaches back far enough. *)
Lemma replay_token_inv (decompressed : jsstring) (t : Token.t) :
  Token.length t = 0 \/ 1 <= Token.offset t <= length decompressed ->
  length (replay_token decompressed t)
  = length decompressed + Token.length t + length (Token.nextChar t)
  /\ firstn (length decompressed) (replay_token decompressed t) = decompressed
  /\ (forall k, length decompressed <= k < length decompressed + Token.length t ->
        index (replay_token decompressed t) k
        = index (replay_token decompressed t) (k - Token.offset t))
  /\ skipn (length decompressed + Token.length t) (replay_token decompressed t)
     = Token.nextChar t.
Proof.
  intros Hback.
  assert (Hcopy : exists body,
             (if 0 <? Token.length t
              then copy_loop (Token.length t)
                     (Z.of_nat (length decompressed) - Z.of_nat (Token.offset t)) 0
                     decompressed
              else decompressed) = body
             /\ length body = length decompressed + Token.length t
             /\ firstn (length decompressed) body = decompressed
             /\ forall k, length decompressed <= k < length decompressed + Token.length t ->
                  index body k = index body (k - Token.offset t)).
  { destruct (0 <? Token.length t) eqn:El.
    - apply Nat.ltb_lt in El. destruct Hback as [H0|Ho]; [lia|].
      rewrite <- Nat2Z.inj_sub by lia.
      destruct (@copy_loop_inv (Token.length t)
                  (length decompressed - Token.offset t) 0 (Token.offset t)
                  decompressed) as (Hl & Hpre & Hk); [lia|lia|].
      eexists. split; [reflexivity|]. split; [exact Hl|]. split; assumption.
    - apply Nat.ltb_ge in El. eexists. split; [reflexivity|].
      split; [lia|]. split; [apply firstn_all|]. intros k Hk. lia. }
  destruct Hcopy as (body & Ebody & Hl & Hpre & Hk).
  assert (Hout : replay_token decompressed t = body ++ Token.nextChar t).
  { unfold replay_token. cbn zeta. rewrite Ebody.
    destruct (Token.nextChar t); [rewrite app_nil_r|]; reflexivity. }
  rewrite Hout. split; [rewrite length_app; lia|]. split.
  - rewrite firstn_app. replace (length decompressed - length body) with 0 by lia.
    cbn [firstn]. rewrite app_nil_r. exact Hpre.
  - split.
    + intros k Hrange. unfold index in *.
      rewrite !nth_error_app1 by lia. apply Hk. exact Hrange.
    + rewrite <- Hl, skipn_app, skipn_all, Nat.sub_diag. reflexivity.
Qed.

End CopyFacts.

(** X12: for a triple whose offset reaches back into the text decoded so
    far (or whose length is 0), one turn of the loop of [lz77Decompress]
    keeps that text as a prefix, appends exactly [length] units, each a copy
    of the unit [offset] places before it (so a copy may run into its own
    output), and then appends [nextChar]. *)
Theorem lz77_decoder_copies_from_offset (decompressed : jsstring) (t : Token.t) :
  Token.length t = 0 \/ 1 <= Token.offset t <= length decompressed ->
  length (LZ77.replay_token decompressed t)
  = length decompressed + Token.length t + length (Token.nextChar t)
  /\ firstn (length decompressed) (LZ77.replay_token decompressed t) = decompressed
  /\ (forall k, length decompressed <= k < length decompressed + Token.length t ->
        index (LZ77.replay_token decompressed t) k
        = index (LZ77.replay_token decompressed t) (k - Token.offset t))
  /\ skipn (length decompressed + Token.length t) (LZ77.replay_token decompressed t)
     = Token.nextChar t.
Proof.
  intros Hback.
  destruct (CopyFacts.replay_token_inv decompressed t Hback) as (Hl & Hpre & Hk & Hnext).
  split; [exact Hl|]. split; [exact Hpre|]. split; [exact Hk | exact Hnext].
Qed.

Lemma lz77_decoder_copies_from_offset_witness :
  (Token.length (Token.mk 2 5 (str "c")) = 0
   \/ 1 <= Token.offset (Token.mk 2 5 (str "c")) <= length (str "xab"))
  /\ LZ77.replay_token (str "xab") (Token.mk 2 5 (str "c")) = str "xabababac"
  /\ length (LZ77.replay_token (str "xab") (Token.mk 2 5 (str "c")))
     = length (str "xab") + 5 + 1.
Proof.
  split; [right; cbn; lia|]. split; [reflexivity|].
  apply (@lz77_decoder_copies_from_offset (str "xab") (Token.mk 2 5 (str "c"))).
  right. cbn. lia.
Defined.

(** ** LZ77: decoding the encoder's own triples *)

Module ReplayFacts.
Import LZ77.

(** A back-reference that carries a next unit makes the decoder write one
    unit more than the cursor of the encoder moved on. *)
Lemma appended_units (data : jsstring) (i : nat) (t : Token.t) :
  i < length data -> valid_triple data i t ->
  Token.length t + length (Token.nextChar t)
  = advance t + (if carries_next t then 1 else 0).
Proof.
  intros Hi (_ & _ & _ & _ & _ & _ & Hnext).
  unfold advance, carries_next. rewrite Hnext.
  destruct (Token.length t) as [|l] eqn:El.
  - rewrite Nat.add_0_r. destruct (index data i) as [c|] eqn:Ec.
    + reflexivity.
    + apply nth_error_None in Ec. lia.
  - destruct (index data (i + S l)); cbn [Nat.ltb Nat.leb andb length]; lia.
Qed.

Lemma replay_length_from (fuel : nat) (data : jsstring) (i : nat) (decompressed : jsstring) :
  length data - i <= fuel -> i <= length data -> i <= length decompressed ->
  length (fold_left replay_token (encode_loop fuel data i []) decompressed)
  = length decompressed + (length data - i)
    + length (filter carries_next (encode_loop fuel data i [])).
Proof.
  revert i decompressed. induction fuel as [|f IH]; intros i dec Hfuel Hi Hdec.
  - cbn [encode_loop fold_left filter length]. lia.
  - destruct (Nat.eq_dec i (length data)) as [->|Hne].
    + rewrite CoverFacts.encode_loop_done by lia. cbn [fold_left filter length]. lia.
    + assert (Hlt : i < length data) by lia.
      pose proof (@TripleFacts.token_at_valid data i Hlt) as Hvalid.
      pose proof (@appended_units data i _ Hlt Hvalid) as Hunits.
      destruct (@CoverFacts.advance_range data i Hlt) as [Hadv Hend].
      assert (Hback : Token.length (token_at data i) = 0
                      \/ 1 <= Token.offset (token_at data i) <= length dec).
      { destruct Hvalid as (Hlo & Hoi & _). lia. }
      destruct (CopyFacts.replay_token_inv dec (token_at data i) Hback) as (Hl & _).
      rewrite CoverFacts.encode_loop_step by assumption.
      cbn [fold_left filter]. rewrite IH by lia. rewrite Hl.
      destruct (carries_next (token_at data i)); cbn [length]; lia.
Qed.

(** While no triple carries a surplus unit the decoder holds exactly the
    part of the text the encoder has passed. *)
Lemma replay_token_in_sync (data : jsstring) (i : nat) (t : Token.t) :
  i < length data -> valid_triple data i t -> carries_next t = false ->
  replay_token (firstn i data) t = firstn (i + advance t) data.
Proof.
  intros Hi Hvalid Hcarry.
  pose proof (appended_units Hi Hvalid) as Hunits. rewrite Hcarry in Hunits.
  destruct Hvalid as (Hlo & Hoi & _ & _ & Hend & Hsame & Hnext).
  assert (Hdec : length (firstn i data) = i) by (rewrite length_firstn; lia).
  assert (Hback : Token.length t = 0 \/ 1 <= Token.offset t <= length (firstn i data))
    by (rewrite Hdec; lia).
  destruct (CopyFacts.replay_token_inv (firstn i data) t Hback)
    as (Hl & Hpre & Hcopy & Htail).
  remember (replay_token (firstn i data) t) as out eqn:Eout. clear Eout.
  rewrite Hdec in Hl, Hcopy, Htail.
  assert (Hadv : i + advance t <= length data) by (unfold advance in *; lia).
  assert (Hout : forall n, n < i + advance t -> index out n = index data n).
  { induction n as [n IHn] using lt_wf_ind. intros Hn.
    destruct (Nat.lt_ge_cases n i) as [Hni|Hni].
    - rewrite (@CopyFacts.index_of_firstn out (firstn i data) n Hpre) by lia.
      unfold index. rewrite nth_error_firstn.
      replace (n <? i) with true; [reflexivity|]. symmetry. apply Nat.ltb_lt. exact Hni.
    - destruct (Nat.lt_ge_cases n (i + Token.length t)) as [Hnl|Hnl].
      + rewrite Hcopy by lia. rewrite IHn by lia.
        specialize (Hsame (n - i)).
        replace (i - Token.offset t + (n - i)) with (n - Token.offset t) in Hsame by lia.
        replace (i + (n - i)) with n in Hsame by lia.
        apply Hsame. lia.
      + assert (Hl0 : Token.length t = 0) by (unfold advance in *; lia).
        assert (n = i) by (unfold advance in *; lia). subst n.
        rewrite Hl0, Nat.add_0_r in Htail, Hnext.
        transitivity (index (skipn i out) 0).
        { unfold index. rewrite nth_error_skipn, Nat.add_0_r. reflexivity. }
        rewrite Htail, Hnext.
        destruct (index data i) as [c|] eqn:Ec; [reflexivity|].
        apply nth_error_None in Ec. lia. }
  apply nth_error_ext. intros n.
  destruct (Nat.lt_ge_cases n (i + advance t)) as [Hn|Hn].
  - rewrite nth_error_firstn.
    replace (n <? i + advance t) with true by (symmetry; apply Nat.ltb_lt; exact Hn).
    apply Hout. exact Hn.
  - transitivity (@None ascii); [|symmetry]; apply nth_error_None.
    + lia.
    + rewrite length_firstn. lia.
Qed.

Lemma replay_in_sync_from (fuel : nat) (data : jsstring) (i : nat) :
  length data - i <= fuel -> i <= length data ->
  (forall t, In t (encode_loop fuel data i []) -> carries_next t = false) ->
  fold_left replay_token (encode_loop fuel data i []) (firstn i data) = data.
Proof.
  revert i. induction fuel as [|f IH]; intros i Hfuel Hi Hnone.
  - cbn [encode_loop fold_left]. apply firstn_all2. lia.
  - destruct (Nat.eq_dec i (length data)) as [->|Hne].
    + rewrite CoverFacts.encode_loop_done by lia. cbn [fold_left]. apply firstn_all.
    + assert (Hlt : i < length data) by lia.
      destruct (@CoverFacts.advance_range data i Hlt) as [Hadv Hend].
      rewrite CoverFacts.encode_loop_step in Hnone |- * by assumption.
      cbn [fold_left].
      rewrite (@replay_token_in_sync data i (token_at data i) Hlt
                 (@TripleFacts.token_at_valid data i Hlt)
                 (Hnone _ (or_introl eq_refl))).
      apply IH; [lia|lia|]. intros t Ht. apply Hnone. right. exact Ht.
Qed.

Lemma filter_nil_none {A : Type} (f : A -> bool) (l : list A) :
  length (filter f l) = 0 -> forall x, In x l -> f x = false.
Proof.
  induction l as [|a l IH]; cbn [filter In]; [intros _ x []|].
  destruct (f a) eqn:Ea; cbn [length]; [discriminate|].
  intros H x [<-|Hx]; [exact Ea | apply IH; assumption].
Qed.

Lemma filter_none_nil {A : Type} (f : A -> bool) (l : list A) :
  (forall x, In x l -> f x = false) -> length (filter f l) = 0.
Proof.
  induction l as [|a l IH]; cbn [filter]; intros H; [reflexivity|].
  rewrite (H a (or_introl eq_refl)). apply IH. intros x Hx. apply H. right. exact Hx.
Qed.

(** The decoded text is longer than the original by one unit for every
    back-reference that carries a next unit; it is the original when there
    is none. *)
Lemma replay_encode (data : jsstring) :
  length (replay (encode data))
  = length data + length (filter carries_next (encode data))
  /\ (replay (encode data) = data
      <-> forall t, In t (encode data) -> carries_next t = false).
Proof.
  assert (Hlen : length (replay (encode data))
                 = length data + length (filter carries_next (encode data))).
  { unfold replay, encode.
    rewrite (@replay_length_from (length data) data 0 []) by (cbn [length]; lia).
    cbn [length]. lia. }
  split; [exact Hlen|]. split.
  - intros Heq. rewrite Heq in Hlen. apply filter_nil_none. lia.
  - intros Hnone. unfold replay, encode.
    apply (@replay_in_sync_from (length data) data 0); [lia|lia|exact Hnone].
Qed.

End ReplayFacts.

(** X13: what [decompressData] makes of the payload of [lz77Compress], for
    a JSON text that parses back to the array it was written from.  The
    result is a text of as many units as [data] has plus one for every
    back-reference triple carrying a [nextChar]; it is [data] itself exactly
    when no triple is such a back-reference. *)
Theorem lz77_roundtrip_exactly_without_surplus
    (JSON_stringify_tokens : list Token.t -> jsstring)
    (JSON_parse_tokens : jsstring -> option (list Token.t))
    (data : jsstring) :
  JSON_parse_tokens (JSON_stringify_tokens (LZ77.encode data)) = Some (LZ77.encode data) ->
  (exists out,
     decompressData JSON_parse_tokens
       (compressedData (lz77Compress JSON_stringify_tokens data)) (str "LZ77") = Ok out
     /\ length out = length data + length (filter carries_next (LZ77.encode data)))
  /\ (decompressData JSON_parse_tokens
        (compressedData (lz77Compress JSON_stringify_tokens data)) (str "LZ77") = Ok data
      <-> forall t, In t (LZ77.encode data) -> carries_next t = false).
Proof.
  intros Hjson.
  assert (Hrun : decompressData JSON_parse_tokens
                   (compressedData (lz77Compress JSON_stringify_tokens data)) (str "LZ77")
                 = Ok (LZ77.replay (LZ77.encode data))).
  { unfold lz77Compress. cbn [compressedData]. unfold decompressData.
    cbn [jsstring_eqb str list_ascii_of_string Ascii.eqb Bool.eqb andb].
    unfold lz77Decompress. rewrite Hjson. reflexivity. }
  destruct (ReplayFacts.replay_encode data) as [Hlen Hiff].
  rewrite Hrun. split.
  - exists (LZ77.replay (LZ77.encode data)). split; [reflexivity | exact Hlen].
  - split.
    + intros Hok. apply Hiff. congruence.
    + intros Hnone. f_equal. apply Hiff. exact Hnone.
Qed.

Lemma lz77_roundtrip_exactly_without_surplus_witness :
  JSONText.parse_tokens (JSONText.stringify_tokens (LZ77.encode (str "abab")))
  = Some (LZ77.encode (str "abab"))
  /\ decompressData JSONText.parse_tokens
       (compressedData (lz77Compress JSONText.stringify_tokens (str "abab")))
       (str "LZ77")
     = Ok (str "abab").
Proof.
  split; [vm_compute; reflexivity|].
  apply (@lz77_roundtrip_exactly_without_surplus
           JSONText.stringify_tokens JSONText.parse_tokens (str "abab"));
    [vm_compute; reflexivity|].
  intros t Ht. vm_compute in Ht.
  destruct Ht as [<-|[<-|[<-|[]]]]; reflexivity.
Defined.
